(** * genjibot: rank calculation, role reconciliation and map submission

    A shallow embedding of [src/utils/utils.py] ([rank_finder],
    [auto_role]) and of [src/utils/maps.py] ([MapSubmission] and its
    [insert_*] methods), with the properties stated about them. *)

From Stdlib Require Import ZArith List Bool Lia Floats.
From stdpp Require Import gmap strings list fin_maps sorting pretty.

Local Open Scope Z_scope.

(** ** Python exceptions that the embedded code can raise *)

Inductive Exn : Type :=
| IndexError
| KeyError
| TypeError
| StorageError
| HTTPException.

Global Instance Exn_eq_dec : EqDecision Exn.
Proof. solve_decision. Defined.

Inductive Result (A : Type) : Type :=
| Ok (a : A)
| Raise (e : Exn).
Arguments Ok {A} a.
Arguments Raise {A} e.

(** ** Stateful code that may raise

    A computation over a store [S] returns a value or raises, and leaves a
    store behind in both cases: what was written before the exception stays
    written. *)

Definition M (S A : Type) : Type := S → Result A * S.

Global Instance M_ret {S} : MRet (M S) := λ A a s, (Ok a, s).

Global Instance M_bind {S} : MBind (M S) := λ A B k m s,
  match m s with
  | (Ok a, s') => k a s'
  | (Raise e, s') => (Raise e, s')
  end.

Definition raise {S A} (e : Exn) : M S A := λ s, (Raise e, s).

(** [if b: body] *)
Definition when {S} (b : bool) (body : M S unit) : M S unit :=
  if b then body else mret tt.

(** [with contextlib.suppress(...): body] for the one exception it names
    here. *)
Definition suppress {S} (e : Exn) (body : M S unit) : M S unit := λ s,
  match body s with
  | (Raise e', s') => if decide (e' = e) then (Ok tt, s') else (Raise e', s')
  | r => r
  end.

(** * The rank calculator ([utils.py], [rank_finder]) *)

Module Rank.

(** One entry of the dict returned by [get_completions_data]:
    (completions, gold, silver, bronze). *)
Definition Counts : Type := (Z * Z * Z * Z)%type.

(** [_RANK_THRESHOLD = (10, 10, 10, 10, 5, 2)] *)
Definition _RANK_THRESHOLD : list Z := [10; 10; 10; 10; 5; 2].

(** Modelled from the spec: [utils.DIFFICULTIES] is imported from a module
    that is not among the sources.  The loop comment ("Ignore Beginner"),
    the six names of the SQL [ranges] table in [get_completions_data], the
    six thresholds and section 4.2 of the specification fix it as the entry
    tier followed by the six ranked buckets. *)
Definition DIFFICULTIES : list string :=
  ["Beginner"; "Easy"; "Medium"; "Hard"; "Very Hard"; "Extreme"; "Hell"]%string.

(** The body of the [for i, diff in enumerate(...)] loop, started at index
    [i] with the running [rank] and [rank_plus].  [break] returns the pair
    reached so far; [_RANK_THRESHOLD[i]] raises [IndexError] out of range,
    and is evaluated only when [diff in amounts] (the [or] short-circuits). *)
Fixpoint walk (amounts : gmap string Counts) (i : nat) (diffs : list string)
    (rank rank_plus : Z) : Result (Z * Z) :=
  match diffs with
  | [] => Ok (rank, rank_plus)
  | diff :: rest =>
    match amounts !! diff with
    | None => Ok (rank, rank_plus)
    | Some (completions, gold, _, _) =>
      match _RANK_THRESHOLD !! i with
      | None => Raise IndexError
      | Some t =>
        if completions <? t then Ok (rank, rank_plus)
        else if completions >=? t then
          let rank' := rank + 1 in
          let rank_plus' :=
            if (gold >=? t) && (rank_plus + 1 =? rank')
            then rank_plus + 1 else rank_plus in
          walk amounts (S i) rest rank' rank_plus'
        else walk amounts (S i) rest rank rank_plus
      end
    end
  end.

(** [rank_finder], given the dict that [get_completions_data] returned. *)
Definition rank_finder (amounts : gmap string Counts) : Result (Z * Z) :=
  walk amounts 0 (tail DIFFICULTIES) 0 0.

(** The buckets the loop visits, in order. *)
Definition ranked_buckets : list string := tail DIFFICULTIES.

(** The walk does not [break] at [diff], visited with index [i]: the
    bucket is present and its completion count reaches threshold [i]. *)
Definition bucket_passes (amounts : gmap string Counts) (i : nat)
    (diff : string) : bool :=
  match amounts !! diff, _RANK_THRESHOLD !! i with
  | Some (completions, _, _, _), Some t => negb (completions <? t)
  | _, _ => false
  end.

(** The same for bucket number [i] of [ranked_buckets]. *)
Definition passes (amounts : gmap string Counts) (i : nat) : bool :=
  match ranked_buckets !! i with
  | Some diff => bucket_passes amounts i diff
  | None => false
  end.

(** How many buckets at the head of [diffs] pass, counted from index [i]. *)
Fixpoint leading (amounts : gmap string Counts) (i : nat)
    (diffs : list string) : nat :=
  match diffs with
  | [] => 0
  | diff :: rest =>
    if bucket_passes amounts i diff then S (leading amounts (S i) rest)
    else 0
  end.

(** The components of a returned pair; an exception has none. *)
Definition rank_of (r : Result (Z * Z)) : option Z :=
  match r with Ok (rank, _) => Some rank | Raise _ => None end.

(** ** Inputs used as examples *)

(** An input on which every ranked bucket meets its threshold. *)
Definition all_cleared : gmap string Counts :=
  list_to_map (map (λ d, (d, (10, 0, 0, 0))) ranked_buckets).

(** The inputs of scenarios A and B. *)
Definition scenario_A : gmap string Counts :=
  <["Easy"%string := (12, 4, 0, 0)]>
    (<["Medium"%string := (10, 1, 0, 0)]> ∅).

(** One bucket cleared, with gold on each of its completions. *)
Definition easy_gold : gmap string Counts :=
  {[ "Easy"%string := (10, 10, 0, 0) ]}.

Definition scenario_B : gmap string Counts :=
  <["Easy"%string := (15, 15, 0, 0)]>
    (<["Medium"%string := (10, 5, 0, 0)]> ∅).

End Rank.

(** * The role reconciler ([utils.py], [auto_role]) *)

Module Reconciler.

(** A guild role is represented by its id: [Role.__eq__] and [Role.__hash__]
    compare ids, and [guild.get_role] returns the cached role of an id. *)

(** Python slices [l[:stop]] and [l[start:]] for an integer bound: a
    negative bound counts from the end and is clipped at the front. *)
Definition slice_to {A} (l : list A) (stop : Z) : list A :=
  if stop <? 0 then take (Z.to_nat (Z.of_nat (length l) + stop)) l
  else take (Z.to_nat stop) l.

Definition slice_from {A} (l : list A) (start : Z) : list A :=
  if start <? 0 then drop (Z.to_nat (Z.of_nat (length l) + start)) l
  else drop (Z.to_nat start) l.

(** [if a not in new_roles: new_roles.append(a)] *)
Definition append_missing (new_roles : list Z) (a : Z) : list Z :=
  if decide (a ∈ new_roles) then new_roles else new_roles ++ [a].

(** [list.remove]: deletes the first occurrence. *)
Fixpoint py_remove (r : Z) (l : list Z) : list Z :=
  match l with
  | [] => []
  | x :: rest => if decide (x = r) then rest else x :: py_remove r rest
  end.

(** [if r in new_roles: new_roles.remove(r)] *)
Definition remove_held (new_roles : list Z) (r : Z) : list Z :=
  if decide (r ∈ new_roles) then py_remove r new_roles else new_roles.

(** The calls that [auto_role] makes on the membership system, the storage
    engine and the event bus, with the arguments that matter here.  The text
    of the direct message is built from the names of the roles in [added]
    and in [removed], which stand for it. *)
Inductive Call : Type :=
| user_edit (user_id : Z) (roles : list Z)
    (* [user.edit(roles=new_roles)] *)
| database_set_rank (user_id rank : Z)
    (* [database.set("UPDATE users SET rank=$2 WHERE user_id=$1;", ...)] *)
| dispatch_newsfeed_role (user_id : Z) (added : list Z)
    (* [client.dispatch("newsfeed_role", client, user, added)] *)
| user_send (user_id : Z) (added removed : list Z).
    (* [user.send(response)] *)

(** What the reconciler reads and writes outside the process. *)
Record World : Type := {
  member_roles : list Z;             (* what [user.roles] lists *)
  users : gmap Z (gmap string Z);    (* table [users]: user_id -> column -> value *)
  calls : list Call                  (* the external calls made so far *)
}.

(** Which of the three external calls fail in a run. *)
Record Faults : Type := {
  edit_raises : bool;    (* [user.edit] raises [discord.HTTPException] *)
  set_raises : bool;     (* [database.set] raises a storage error *)
  send_raises : bool     (* [user.send] raises [discord.HTTPException] *)
}.

Definition no_faults : Faults :=
  {| edit_raises := false; set_raises := false; send_raises := false |}.

Section Ladders.

(** [utils.Roles.ranks()] and [utils.Roles.ranks_plus()]: the ids of the
    two role ladders; their module is not among the sources. *)
Variables (ranks ranks_plus : list Z).

Definition rank_roles : list Z := tail ranks.
Definition rank_plus_roles : list Z := tail ranks_plus.

(** The lists [added] and [removed]. *)
Definition added (held : list Z) (rank rank_plus : Z) : list Z :=
  filter (λ x, x ∉ held) (slice_to rank_roles rank)
  ++ filter (λ x, x ∉ held) (slice_to rank_plus_roles rank_plus).

Definition removed (held : list Z) (rank rank_plus : Z) : list Z :=
  filter (λ x, x ∈ held) (slice_from rank_roles (rank + 1))
  ++ filter (λ x, x ∈ held) (slice_from rank_plus_roles (rank_plus + 1)).

(** The roles the player is entitled to, and the part of the ladders that
    [removed] scans. *)
Definition target (rank rank_plus : Z) : list Z :=
  slice_to rank_roles rank ++ slice_to rank_plus_roles rank_plus.

Definition scanned (rank rank_plus : Z) : list Z :=
  slice_from rank_roles (rank + 1)
  ++ slice_from rank_plus_roles (rank_plus + 1).

(** [discord.Member.roles] is a property that builds a new list on every
    access, so [new_roles] is a private copy that the two loops update. *)
Definition new_roles (held : list Z) (rank rank_plus : Z) : list Z :=
  foldl remove_held
        (foldl append_missing held (added held rank rank_plus))
        (removed held rank rank_plus).

(** [set(new_roles) != set(user.roles)] *)
Definition roles_differ (new held : list Z) : bool :=
  bool_decide (list_to_set new ≠@{gset Z} list_to_set held).

(** Python truthiness of a list. *)
Definition nonempty {A} (l : list A) : bool :=
  match l with [] => false | _ => true end.

(** [user.roles] *)
Definition roles : M World (list Z) := λ w, (Ok (member_roles w), w).

Definition log (c : Call) (w : World) : World :=
  {| member_roles := member_roles w; users := users w;
     calls := calls w ++ [c] |}.

(** [await user.edit(roles=new_roles)]: when it returns, the membership
    system holds the roles it was given. *)
Definition edit (f : Faults) (user_id : Z) (new : list Z) : M World unit :=
  λ w,
  let w := log (user_edit user_id new) w in
  if edit_raises f then (Raise HTTPException, w)
  else (Ok tt, {| member_roles := new; users := users w; calls := calls w |}).

(** [await client.database.set("UPDATE users SET rank=$2 WHERE
    user_id=$1;", user.id, rank)] *)
Definition set_rank (f : Faults) (user_id rank : Z) : M World unit := λ w,
  let w := log (database_set_rank user_id rank) w in
  if set_raises f then (Raise StorageError, w)
  else (Ok tt, {| member_roles := member_roles w;
                  users := alter (λ row, <["rank"%string := rank]> row)
                                 user_id (users w);
                  calls := calls w |}).

(** [client.dispatch("newsfeed_role", client, user, added)] *)
Definition dispatch (user_id : Z) (added : list Z) : M World unit := λ w,
  (Ok tt, log (dispatch_newsfeed_role user_id added) w).

(** [await user.send(response)] *)
Definition send (f : Faults) (user_id : Z) (added removed : list Z)
    : M World unit := λ w,
  let w := log (user_send user_id added removed) w in
  if send_raises f then (Raise HTTPException, w) else (Ok tt, w).

(** The body of [auto_role] after [rank_finder] has returned. *)
Definition reconcile (f : Faults) (user_id rank rank_plus : Z)
    : M World unit :=
  held ← roles;
  let added := added held rank rank_plus in
  let removed := removed held rank rank_plus in
  let new_roles := new_roles held rank rank_plus in
  held' ← roles;
  when (roles_differ new_roles held')
       (edit f user_id new_roles;; set_rank f user_id rank);;
  when (nonempty added) (dispatch user_id added);;
  when (nonempty added || nonempty removed)
       (suppress HTTPException (send f user_id added removed)).

(** [auto_role], given the dict that [get_completions_data] returned. *)
Definition auto_role (f : Faults) (user_id : Z)
    (amounts : gmap string Rank.Counts) : M World unit :=
  match Rank.rank_finder amounts with
  | Ok (rank, rank_plus) => reconcile f user_id rank rank_plus
  | Raise e => raise e
  end.

End Ladders.

(** ** Inputs used as examples *)

(** Two ladders of seven roles each, index 0 being the entry tier. *)
Definition ex_ranks : list Z := [100; 101; 102; 103; 104; 105; 106].
Definition ex_ranks_plus : list Z := [200; 201; 202; 203; 204; 205; 206].

(** Player 7, stored with rank 3 and rank_plus 0, holding [held]. *)
Definition ex_world (held : list Z) : World :=
  {| member_roles := held;
     users := {[ 7 := {[ "rank"%string := 3; "rank_plus"%string := 0 ]} ]};
     calls := [] |}.

(** The stored value of a column of the player's row. *)
Definition stored (w : World) (user_id : Z) (column : string) : option Z :=
  users w !! user_id ≫= λ row, row !! column.

End Reconciler.

(** * The submission writer ([maps.py], [MapSubmission]) *)

Module Submission.

(** Truthiness of a Python float: every value but the two zeros. *)
Definition float_truthy (x : float) : bool := negb (PrimFloat.eqb x 0%float).

(** Truthiness of a Python string. *)
Definition str_truthy (s : string) : bool :=
  match s with EmptyString => false | _ => true end.

(** The dataclass; [creator] stands for [creator.id], the only attribute of
    the creator that the writer reads. *)
Record MapSubmission : Type := {
  creator : Z;
  map_code : string;
  map_name : string;
  checkpoint_count : Z;
  description : option string;
  medals : option (float * float * float);
  guides : option (list string);
  map_types : option (list string);
  mechanics : option (list string);
  restrictions : option (list string);
  difficulty : option string
}.

(** The properties [gold], [silver] and [bronze]. *)
Definition gold (s : MapSubmission) : option float :=
  match medals s with
  | Some (g, _, _) => if float_truthy g then Some g else None
  | None => None
  end.

Definition silver (s : MapSubmission) : option float :=
  match medals s with
  | Some (_, sv, _) => if float_truthy sv then Some sv else None
  | None => None
  end.

Definition bronze (s : MapSubmission) : option float :=
  match medals s with
  | Some (_, _, b) => if float_truthy b then Some b else None
  | None => None
  end.

Section Display.

(** The three emoji constants of [utils] and Python's formatting of a
    float inside an f-string; none of them is among the sources. *)
Variables (FULLY_VERIFIED_GOLD FULLY_VERIFIED_SILVER FULLY_VERIFIED_BRONZE
           : string).
Variable format_float : float → string.

(** [f"{emoji} {value}"], appended when the accessor is truthy. *)
Definition medal_entry (emoji : string) (o : option float) : list string :=
  match o with
  | Some x => if float_truthy x
              then [String.append emoji (String.append " " (format_float x))]
              else []
  | None => []
  end.

(** The list [formatted_medals] that [medals_str] builds. *)
Definition formatted_medals (s : MapSubmission) : list string :=
  medal_entry FULLY_VERIFIED_GOLD (gold s)
  ++ medal_entry FULLY_VERIFIED_SILVER (silver s)
  ++ medal_entry FULLY_VERIFIED_BRONZE (bronze s).

Definition medals_str (s : MapSubmission) : string :=
  match formatted_medals s with
  | [] => EmptyString
  | l => String.concat " | " l
  end.

End Display.

(** One row of one of the eight tables, with the columns in the order of
    its [INSERT] statement. *)
Inductive Row : Type :=
| maps_row (map_name : string) (map_type : option (list string))
           (map_code : string) (desc : option string) (official : bool)
           (checkpoints : Z)
| map_mechanics_row (map_code mechanic : string)
| map_restrictions_row (map_code restriction : string)
| map_creators_row (map_code : string) (user_id : Z)
| map_ratings_row (map_code : string) (user_id : Z) (difficulty : float)
| guides_row (map_code url : string)
| map_medals_row (gold silver bronze : option float) (map_code : string)
| map_submission_dates_row (user_id : Z) (map_code : string).

(** The storage engine as the writer sees it: the rows that are persisted,
    and how many more statements succeed before one fails ([None]: none
    fails). *)
Record Database : Type := {
  rows : list Row;
  fails_after : option nat
}.

(** Modelled from the spec: the [database] module is not among the sources.
    A statement either persists all its rows or fails with a storage error
    and persists none; nothing groups several statements. *)
Definition execute (new : list Row) : M Database unit := λ db,
  match fails_after db with
  | Some O => (Raise StorageError, db)
  | Some (S n) => (Ok tt, {| rows := rows db ++ new; fails_after := Some n |})
  | None => (Ok tt, {| rows := rows db ++ new; fails_after := None |})
  end.

(** Modelled from the spec: [database.set], one parameterized statement. *)
Definition set (r : Row) : M Database unit := execute [r].

(** Modelled from the spec: [database.set_many], one batch insert. *)
Definition set_many (rs : list Row) : M Database unit := execute rs.

(** [for x in seq] over an attribute that may be [None]. *)
Definition iter {A} (o : option (list A)) : M Database (list A) :=
  match o with
  | Some l => mret l
  | None => raise TypeError
  end.

Section Writer.

(** [utils.DIFFICULTIES_RANGES]: difficulty name -> (low, high); its module
    is not among the sources. *)
Variable DIFFICULTIES_RANGES : gmap string (float * float).

(** [utils.DIFFICULTIES_RANGES[self.difficulty][0]] *)
Definition base_difficulty (s : MapSubmission) : M Database float :=
  match difficulty s with
  | Some d =>
    match DIFFICULTIES_RANGES !! d with
    | Some (low, _) => mret low
    | None => raise KeyError
    end
  | None => raise KeyError
  end.

(** The flag [mod] of the source is [mod_] here ([mod] is an operator). *)
Definition insert_maps (s : MapSubmission) (mod_ : bool) : M Database unit :=
  set (maps_row (map_name s) (map_types s) (map_code s) (description s) mod_
                (checkpoint_count s)).

Definition insert_mechanics (s : MapSubmission) : M Database unit :=
  l ← iter (mechanics s);
  set_many (map (λ x, map_mechanics_row (map_code s) x) l).

Definition insert_restrictions (s : MapSubmission) : M Database unit :=
  l ← iter (restrictions s);
  set_many (map (λ x, map_restrictions_row (map_code s) x) l).

Definition insert_map_creators (s : MapSubmission) : M Database unit :=
  set (map_creators_row (map_code s) (creator s)).

Definition insert_map_ratings (s : MapSubmission) : M Database unit :=
  d ← base_difficulty s;
  set (map_ratings_row (map_code s) (creator s) d).

Definition insert_guide (s : MapSubmission) : M Database unit :=
  l ← iter (guides s);
  let _guides :=
    map (λ guide, guides_row (map_code s) guide)
        (List.filter str_truthy l) in
  when (match _guides with [] => false | _ => true end) (set_many _guides).

Definition insert_medals (s : MapSubmission) : M Database unit :=
  when (match medals s with Some _ => true | None => false end)
       (set (map_medals_row (gold s) (silver s) (bronze s) (map_code s))).

Definition insert_timestamp (s : MapSubmission) (mod_ : bool)
    : M Database unit :=
  when (negb mod_) (set (map_submission_dates_row (creator s) (map_code s))).

Definition insert_all (s : MapSubmission) (mod_ : bool) : M Database unit :=
  insert_maps s mod_;;
  insert_mechanics s;;
  insert_restrictions s;;
  insert_map_creators s;;
  insert_map_ratings s;;
  insert_guide s;;
  insert_medals s;;
  insert_timestamp s mod_.

(** The statements that a complete run of [insert_all] executes, in order,
    each with the rows it inserts, for a submission whose mechanics,
    restrictions and guides are the lists [ms], [rs] and [gs] and whose base
    difficulty is [low]. *)
Definition guide_rows (s : MapSubmission) (gs : list string) : list Row :=
  map (λ guide, guides_row (map_code s) guide) (List.filter str_truthy gs).

Definition medal_rows (s : MapSubmission) : list Row :=
  match medals s with
  | Some _ => [map_medals_row (gold s) (silver s) (bronze s) (map_code s)]
  | None => []
  end.

Definition timestamp_rows (s : MapSubmission) (mod_ : bool) : list Row :=
  if mod_ then [] else [map_submission_dates_row (creator s) (map_code s)].

Definition statements (s : MapSubmission) (ms rs gs : list string)
    (low : float) (mod_ : bool) : list (list Row) :=
  [ [maps_row (map_name s) (map_types s) (map_code s) (description s) mod_
              (checkpoint_count s)];
    map (λ x, map_mechanics_row (map_code s) x) ms;
    map (λ x, map_restrictions_row (map_code s) x) rs;
    [map_creators_row (map_code s) (creator s)];
    [map_ratings_row (map_code s) (creator s) low] ]
  ++ (match guide_rows s gs with [] => [] | g => [g] end)
  ++ (match medal_rows s with [] => [] | m => [m] end)
  ++ (match timestamp_rows s mod_ with [] => [] | t => [t] end).

(** Executing a list of statements one after the other. *)
Fixpoint execute_all (sts : list (list Row)) : M Database unit :=
  match sts with
  | [] => mret tt
  | st :: rest => execute st;; execute_all rest
  end.

End Writer.

(** ** Inputs used as examples *)

Definition ex_ranges : gmap string (float * float) :=
  {[ "Easy"%string := (1%float, 2%float) ]}.

(** A submission with two guide links, one of them empty, a gold cutoff of
    zero, and no description. *)
Definition ex_submission : MapSubmission :=
  {| creator := 7; map_code := "ABC12"; map_name := "Hanamura";
     checkpoint_count := 12; description := None;
     medals := Some (0%float, 30.5%float, 45%float);
     guides := Some [""; "https://guide"]%string;
     map_types := Some ["Classic"]%string;
     mechanics := Some ["Bhop"; "Dash"]%string;
     restrictions := Some ["Dash Start"]%string;
     difficulty := Some "Easy"%string |}.

Definition empty_database (fault : option nat) : Database :=
  {| rows := []; fails_after := fault |}.

End Submission.

(** * Further vocabulary for the rank calculator *)

Module Tiers.

Import Rank.

(** The walk raises [rank_plus] at [diff], visited with index [i], when the
    plus tier has not been interrupted before: the bucket passes and its
    gold count reaches threshold [i] as well. *)
Definition plus_passes (amounts : gmap string Counts) (i : nat)
    (diff : string) : bool :=
  match amounts !! diff, _RANK_THRESHOLD !! i with
  | Some (completions, gold, _, _), Some t =>
    negb (completions <? t) && (gold >=? t)
  | _, _ => false
  end.

(** How many buckets at the head of [diffs] pass with gold. *)
Fixpoint leading_plus (amounts : gmap string Counts) (i : nat)
    (diffs : list string) : nat :=
  match diffs with
  | [] => 0
  | diff :: rest =>
    if plus_passes amounts i diff then S (leading_plus amounts (S i) rest)
    else 0
  end.

(** The two counts of a bucket that the walk reads. *)
Definition read_counts (amounts : gmap string Counts) (diff : string)
    : option (Z * Z) :=
  match amounts !! diff with
  | Some (completions, gold, _, _) => Some (completions, gold)
  | None => None
  end.

(** [amounts'] has every bucket of [amounts], with at least as many
    completions and at least as many golds. *)
Definition counts_le (amounts amounts' : gmap string Counts) : Prop :=
  ∀ diff completions gold,
    read_counts amounts diff = Some (completions, gold) →
    ∃ completions' gold',
      read_counts amounts' diff = Some (completions', gold')
      ∧ completions ≤ completions' ∧ gold ≤ gold'.

End Tiers.

(** * Re-evaluating the players of a map ([utils.py],
      [update_affected_users]) *)

Module Affected.

Import Reconciler.

(** The guild as the loop sees it: the roles of each member
    ([guild.get_member] returns [None] for an id that is not a member), the
    table [users] and the external calls made so far. *)
Record Guild : Type := {
  members : gmap Z (list Z);
  guild_users : gmap Z (gmap string Z);
  guild_calls : list Call
}.

Section Loop.

Variables (ranks ranks_plus : list Z).

(** Which external calls fail while a given member is reconciled, and the
    dict that [get_completions_data] returns for a given user id. *)
Variable faults : Z → Faults.
Variable completions : Z → gmap string Rank.Counts.

(** [await utils.auto_role(itx.client, user)] for the member [x] holding
    [held]. *)
Definition auto_role_member (x : Z) (held : list Z) : M Guild unit := λ g,
  let (r, w) :=
    auto_role ranks ranks_plus (faults x) x (completions x)
      {| member_roles := held; users := guild_users g;
         calls := guild_calls g |} in
  (r, {| members := <[x := member_roles w]> (members g);
         guild_users := users w; guild_calls := calls w |}).

(** The loop body: [if user := itx.guild.get_member(x): await auto_role]. *)
Definition visit (x : Z) : M Guild unit := λ g,
  match members g !! x with
  | Some held => auto_role_member x held g
  | None => (Ok tt, g)
  end.

(** [for x in users: ...] *)
Fixpoint for_users (users : list Z) : M Guild unit :=
  match users with
  | [] => mret tt
  | x :: rest => visit x;; for_users rest
  end.

(** [update_affected_users], given the user ids that the [SELECT DISTINCT]
    returned; the guard [if users:] only skips an empty loop. *)
Definition update_affected_users (users : list Z) : M Guild unit :=
  when (nonempty users) (for_users users).

End Loop.

(** ** Inputs used as examples *)

(** Members 7 and 8; user 9 has completions but has left the guild. *)
Definition ex_guild : Guild :=
  {| members := {[ 7 := [103]; 8 := [500] ]};
     guild_users := {[ 7 := {[ "rank"%string := 3 ]} ]};
     guild_calls := [] |}.

Definition ex_completions (x : Z) : gmap string Rank.Counts :=
  if decide (x = 7) then Rank.easy_gold else ∅.

End Affected.

(** * Fuzzy matching ([utils.py], [fuzz_], [fuzz_multiple]) and the
      transformers that use it ([maps.py]) *)

Module Fuzz.

Section Score.

(** [fuzz.partial_ratio] of the library thefuzz. *)
Variable partial_ratio : string → string → Z.

(** [values = [(val, fuzz.partial_ratio(string, val)) for val in iterable]] *)
Definition scored (s : string) (iterable : list string) : list (string * Z) :=
  (λ val, (val, partial_ratio s val)) <$> iterable.

(** [max(values, key=operator.itemgetter(1))]: the first item with the
    greatest key; [None] stands for the [ValueError] that [max] raises on an
    empty sequence. *)
Fixpoint max_from (best : string * Z) (l : list (string * Z)) : string * Z :=
  match l with
  | [] => best
  | x :: rest => if best.2 <? x.2 then max_from x rest else max_from best rest
  end.

Definition py_max (l : list (string * Z)) : option (string * Z) :=
  match l with
  | [] => None
  | x :: rest => Some (max_from x rest)
  end.

Definition fuzz_ (s : string) (iterable : list string) : option string :=
  fst <$> py_max (scored s iterable).

(** [sorted(values, key=operator.itemgetter(1), reverse=True)]: by
    decreasing key, items of equal key staying in their original order. *)
Fixpoint insert_desc (x : string * Z) (l : list (string * Z))
    : list (string * Z) :=
  match l with
  | [] => [x]
  | y :: rest => if x.2 <? y.2 then y :: insert_desc x rest else x :: y :: rest
  end.

Definition sorted_desc (l : list (string * Z)) : list (string * Z) :=
  foldr insert_desc [] l.

Definition fuzz_multiple (s : string) (iterable : list string) : list string :=
  fst <$> take 10 (sorted_desc (scored s iterable)).

(** [MapMechanicsTransformer.transform] and
    [MapRestrictionsTransformer.transform], [cache] being the list
    [itx.client.cache.map_mechanics.list] (resp. [map_restrictions.list]). *)
Definition transform (cache : list string) (value : string) : option string :=
  if decide (value ∈ cache) then Some value else fuzz_ value cache.

End Score.

(** The order that [sorted_desc] establishes. *)
Definition by_key (a b : string * Z) : Prop := b.2 ≤ a.2.

(** An example score: the length of the candidate. *)
Definition ex_ratio (s val : string) : Z := Z.of_nat (String.length val).

End Fuzz.

(** * Display strings and map metadata ([maps.py]) *)

Module Display.

Import Stdlib.Strings.Ascii Submission.

(** [MapSubmission._remove_nulls]: [[x for x in sequence if x is not None]] *)
Definition _remove_nulls {A} (sequence : list (option A)) : list (option A) :=
  filter (λ x, is_Some x) sequence.

(** [", ".join(...)] *)
Definition join (sep : string) (l : list string) : string :=
  String.concat sep l.

(** The common body of the properties [mechanics_str], [restrictions_str]
    and [map_types_str], over the attribute they read and overwrite: the
    attribute may be [None] and its elements may be [None].  The attribute
    is replaced by the list without nulls; the result is the joined list,
    or [None] when nothing is left. *)
Definition tags_str : M (option (list (option string))) (option string) :=
  λ attr,
  match attr with
  | None => (Raise TypeError, attr)
  | Some sequence =>
    let cleaned := _remove_nulls sequence in
    (Ok (match cleaned with
         | [] => None
         | _ => Some (join ", " (omap id cleaned))
         end),
     Some cleaned)
  end.

(** [enumerate(self.guides, start=1)], keeping the pairs whose link is not
    empty. *)
Definition guide_entries (guides : list string) : list (nat * string) :=
  filter (λ p, str_truthy p.2 = true) (imap (λ i link, (S i, link)) guides).

(** [f"[Link {count}]({link})"] *)
Definition guide_link (p : nat * string) : string :=
  String.append "[Link "
    (String.append (pretty p.1)
       (String.append "](" (String.append p.2 ")"))).

(** The property [guide_str]. *)
Definition guide_str (s : MapSubmission) : Result string :=
  match guides s with
  | None => Raise TypeError
  | Some gs => Ok (join ", " (guide_link <$> guide_entries gs))
  end.

(** Characters below 128, on which Python's [str] and the strings used here
    agree. *)
Definition is_ascii (c : Ascii.ascii) : bool := (Ascii.nat_of_ascii c <? 128)%nat.

Fixpoint all_chars (p : Ascii.ascii → bool) (s : string) : bool :=
  match s with
  | EmptyString => true
  | String c rest => p c && all_chars p rest
  end.

(** [str.isspace] on one character below 128: tab, line feed, vertical tab,
    form feed, carriage return, the four separators 28 .. 31 and the space;
    the class [\s] of [re] is the same set. *)
Definition is_space (c : Ascii.ascii) : bool :=
  let n := Ascii.nat_of_ascii c in
  ((9 <=? n) && (n <=? 13) || (28 <=? n) && (n <=? 32))%nat.

Definition is_upper (c : Ascii.ascii) : bool :=
  let n := Ascii.nat_of_ascii c in ((65 <=? n) && (n <=? 90))%nat.

(** [str.lower] on characters below 128. *)
Definition lower_char (c : Ascii.ascii) : Ascii.ascii :=
  if is_upper c then Ascii.ascii_of_nat (Ascii.nat_of_ascii c + 32) else c.

Fixpoint lower (s : string) : string :=
  match s with
  | EmptyString => EmptyString
  | String c rest => String (lower_char c) (lower rest)
  end.

(** Deleting every character that satisfies [p]: [re.sub] of a character
    class by the empty string, and [str.replace] of a one-character string
    by the empty string. *)
Fixpoint delete_chars (p : Ascii.ascii → bool) (s : string) : string :=
  match s with
  | EmptyString => EmptyString
  | String c rest =>
    if p c then delete_chars p rest else String c (delete_chars p rest)
  end.

(** The character class of [r"[\s:()\']"]. *)
Definition extra_char (c : Ascii.ascii) : bool :=
  is_space c
  || bool_decide (c = ":"%char) || bool_decide (c = "("%char)
  || bool_decide (c = ")"%char) || bool_decide (c = "'"%char).

(** [MapMetadata._remove_extra_chars] *)
Definition _remove_extra_chars (s : string) : string :=
  delete_chars extra_char (lower s).

Definition _MAPS_BASE_URL : string :=
  "http://207.244.249.145/assets/images/map_banners/".

(** [IMAGE_URL] as [__post_init__] sets it. *)
Definition IMAGE_URL (NAME : string) : string :=
  String.append _MAPS_BASE_URL
    (String.append (_remove_extra_chars NAME) ".png").

(** [str.rstrip()] *)
Fixpoint rstrip (s : string) : string :=
  match s with
  | EmptyString => EmptyString
  | String c rest =>
    match rstrip rest with
    | EmptyString => if is_space c then EmptyString else String c EmptyString
    | kept => String c kept
    end
  end.

Definition DIFF_TO_RANK : gmap string string :=
  list_to_map
    [("Beginner", "Ninja"); ("Easy", "Jumper"); ("Medium", "Skilled");
     ("Hard", "Pro"); ("Very Hard", "Master"); ("Extreme", "Grandmaster");
     ("Hell", "God")]%string.

(** The key looked up by [new_map_newsfeed]:
    [difficulty.replace("+", "").replace("-", "").rstrip()]. *)
Definition base_name (difficulty : string) : string :=
  rstrip (delete_chars (λ c, bool_decide (c = "-"%char))
            (delete_chars (λ c, bool_decide (c = "+"%char)) difficulty)).

(** [rank] of [new_map_newsfeed], for a difficulty that is a string:
    [DIFF_TO_RANK[...].lower()]. *)
Definition thumbnail_rank (difficulty : string) : Result string :=
  match DIFF_TO_RANK !! base_name difficulty with
  | Some name => Ok (lower name)
  | None => Raise KeyError
  end.

(** The map code that a row carries. *)
Definition row_code (r : Row) : string :=
  match r with
  | maps_row _ _ code _ _ _ => code
  | map_mechanics_row code _ => code
  | map_restrictions_row code _ => code
  | map_creators_row code _ => code
  | map_ratings_row code _ _ => code
  | guides_row code _ => code
  | map_medals_row _ _ _ code => code
  | map_submission_dates_row _ code => code
  end.

(** A computation only appends rows, all of them carrying [code]. *)
Definition writes_only {A} (code : string) (m : M Database A) : Prop :=
  ∀ db, ∃ new,
    rows (m db).2 = rows db ++ new
    ∧ Forall (λ r, row_code r = code) new.

(** A submission as the dataclass builds it when only the six positional
    fields are given: the lists and the difficulty are still [None]. *)
Definition ex_unset : MapSubmission :=
  {| creator := 7; map_code := "ABC12"; map_name := "Hanamura";
     checkpoint_count := 12; description := None; medals := None;
     guides := None; map_types := None; mechanics := None;
     restrictions := None; difficulty := None |}.

End Display.

(** * Properties of the rank calculator *)

Section RankFacts.

Import Rank.

Variable amounts : gmap string Counts.

Lemma threshold_in_range (i : nat) :
  (i < length _RANK_THRESHOLD)%nat → ∃ t, _RANK_THRESHOLD !! i = Some t.
Proof. intros Hi. apply lookup_lt_is_Some_2 in Hi. destruct Hi; eauto. Qed.

(** The walk returns, its rank is the start value plus the number of leading
    passing buckets, and [0 <= rank_plus <= rank] is kept. *)
Lemma walk_leading (diffs : list string) :
  ∀ (i : nat) (rank rank_plus : Z),
    (i + length diffs ≤ length _RANK_THRESHOLD)%nat →
    ∃ rank_plus',
      walk amounts i diffs rank rank_plus
      = Ok (rank + Z.of_nat (leading amounts i diffs), rank_plus')
      ∧ (0 ≤ rank_plus ≤ rank →
         0 ≤ rank_plus' ≤ rank + Z.of_nat (leading amounts i diffs)).
Proof.
  induction diffs as [|diff rest IH]; intros i rank rank_plus Hlen; simpl.
  - exists rank_plus. rewrite Z.add_0_r. split; [reflexivity | lia].
  - simpl in Hlen. unfold bucket_passes.
    destruct (amounts !! diff) as [[[[completions gold] sv] br]|] eqn:Hd.
    2:{ exists rank_plus. rewrite Z.add_0_r. split; [reflexivity | lia]. }
    destruct (threshold_in_range i) as [t Ht]; [simpl; lia|]. rewrite Ht.
    destruct (completions <? t) eqn:Hlt; simpl.
    { exists rank_plus. rewrite Z.add_0_r. split; [reflexivity | lia]. }
    assert (Hge : (completions >=? t) = true).
    { apply Z.ltb_ge in Hlt. rewrite Z.geb_leb. apply Z.leb_le. lia. }
    rewrite Hge.
    destruct (IH (S i) (rank + 1)
                 (if (gold >=? t) && (rank_plus + 1 =? rank + 1)
                  then rank_plus + 1 else rank_plus)) as [rp' [Hw Hb]];
      [simpl; lia|].
    exists rp'. rewrite Hw. split.
    + f_equal. f_equal. lia.
    + intros Hinv.
      assert (Hnext : 0 ≤ (if (gold >=? t) && (rank_plus + 1 =? rank + 1)
                           then rank_plus + 1 else rank_plus) ≤ rank + 1)
        by (destruct ((gold >=? t) && (rank_plus + 1 =? rank + 1)); lia).
      specialize (Hb Hnext). lia.
Qed.

Lemma leading_first_fail (diffs : list string) :
  ∀ (i k : nat),
    (∀ j d, (j < k)%nat → diffs !! j = Some d →
            bucket_passes amounts (i + j) d = true) →
    (∀ d, diffs !! k = Some d → bucket_passes amounts (i + k) d = false) →
    (k < length diffs)%nat →
    leading amounts i diffs = k.
Proof.
  induction diffs as [|diff rest IH]; intros i k Hbelow Hk Hlen; simpl in *.
  - lia.
  - destruct k as [|k].
    + rewrite <- (Nat.add_0_r i) at 1. rewrite (Hk diff); reflexivity.
    + rewrite <- (Nat.add_0_r i) at 1.
      rewrite (Hbelow 0%nat diff); [|lia|reflexivity].
      f_equal. apply IH.
      * intros j d Hj Hd. replace (S i + j)%nat with (i + S j)%nat by lia.
        apply Hbelow; [lia | exact Hd].
      * intros d Hd. replace (S i + k)%nat with (i + S k)%nat by lia.
        apply Hk. exact Hd.
      * lia.
Qed.

Lemma count_all_below (p : nat → bool) (k : nat) :
  (∀ j, (j < k)%nat → p j = true) →
  length (List.filter p (seq 0 k)) = k.
Proof.
  intros Hall.
  rewrite (List.forallb_filter_id p (seq 0 k)).
  - apply length_seq.
  - apply List.forallb_forall. intros j Hj. apply in_seq in Hj.
    apply Hall. lia.
Qed.

End RankFacts.

Lemma leading_mono (a a' : gmap string Rank.Counts) (diffs : list string) :
  (∀ j d, Rank.bucket_passes a j d = true →
          Rank.bucket_passes a' j d = true) →
  ∀ i, (Rank.leading a i diffs ≤ Rank.leading a' i diffs)%nat.
Proof.
  intros Himp. induction diffs as [|d rest IH]; intros i; simpl.
  - lia.
  - destruct (Rank.bucket_passes a i d) eqn:Hp; [|lia].
    rewrite (Himp _ _ Hp). specialize (IH (S i)). lia.
Qed.

Lemma bucket_passes_raise (a : gmap string Rank.Counts) (k : string)
    (c' g' s' b' : Z) :
  match a !! k with
  | Some (c, g, s, b) => c ≤ c' ∧ g' = g ∧ s' = s ∧ b' = b
  | None => True
  end →
  ∀ j d, Rank.bucket_passes a j d = true →
         Rank.bucket_passes (<[k := (c', g', s', b')]> a) j d = true.
Proof.
  intros Hk j d. unfold Rank.bucket_passes.
  destruct (decide (k = d)) as [->|Hne].
  - rewrite lookup_insert_eq.
    destruct (a !! d) as [[[[c g] s] b]|]; [|discriminate].
    destruct (Rank._RANK_THRESHOLD !! j) as [t|]; [|discriminate].
    destruct Hk as [Hle _]. intros Hp.
    apply negb_true_iff, Z.ltb_ge in Hp.
    apply negb_true_iff, Z.ltb_ge. lia.
  - rewrite lookup_insert_ne by exact Hne. auto.
Qed.

Lemma rank_finder_leading (amounts : gmap string Rank.Counts) :
  ∃ rank_plus,
    Rank.rank_finder amounts
    = Ok (Z.of_nat (Rank.leading amounts 0 Rank.ranked_buckets), rank_plus)
    ∧ 0 ≤ rank_plus ≤ Z.of_nat (Rank.leading amounts 0 Rank.ranked_buckets).
Proof.
  destruct (walk_leading amounts Rank.ranked_buckets 0 0 0) as [rp [Hw Hb]].
  - simpl. lia.
  - exists rp. split; [exact Hw | apply Hb; lia].
Qed.

(** C3, as stated, fails: the walk covers six buckets, not five.  With every
    bucket at its threshold the returned rank is 6. *)
Lemma rank_finder_walks_six_buckets :
  Rank.rank_of (Rank.rank_finder Rank.all_cleared) = Some 6
  ∧ length Rank.ranked_buckets ≠ 5%nat.
Proof. split; [vm_compute; reflexivity | simpl; lia]. Qed.

(** C3 (amended): the walk covers the six buckets Easy .. Hell in increasing
    difficulty and stops at the first one that is missing or below its
    threshold: when bucket [k] is the first that fails, the returned rank is
    the number of buckets strictly below [k] that passed (which is [k]),
    whatever the entries of the buckets above [k] are. *)
Theorem rank_finder_contiguity (amounts : gmap string Rank.Counts) (k : nat) :
  (k < 6)%nat →
  Rank.passes amounts k = false →
  (∀ j, (j < k)%nat → Rank.passes amounts j = true) →
  Rank.ranked_buckets
  = ["Easy"; "Medium"; "Hard"; "Very Hard"; "Extreme"; "Hell"]%string
  ∧ Rank.rank_of (Rank.rank_finder amounts)
    = Some (Z.of_nat (length (List.filter (Rank.passes amounts) (seq 0 k))))
  ∧ length (List.filter (Rank.passes amounts) (seq 0 k)) = k.
Proof.
  intros Hk Hfail Hbelow. split; [reflexivity|].
  rewrite (count_all_below _ k Hbelow). split; [|reflexivity].
  destruct (rank_finder_leading amounts) as [rp [Hr _]]. rewrite Hr.
  unfold Rank.rank_of. f_equal. f_equal.
  apply leading_first_fail.
  - intros j d Hj Hd. specialize (Hbelow j Hj). unfold Rank.passes in Hbelow.
    rewrite Hd in Hbelow. exact Hbelow.
  - intros d Hd. unfold Rank.passes in Hfail. rewrite Hd in Hfail.
    exact Hfail.
  - simpl. lia.
Qed.

Lemma rank_finder_contiguity_witness :
  Rank.ranked_buckets
  = ["Easy"; "Medium"; "Hard"; "Very Hard"; "Extreme"; "Hell"]%string
  ∧ Rank.rank_of (Rank.rank_finder Rank.scenario_A)
    = Some (Z.of_nat
              (length (List.filter (Rank.passes Rank.scenario_A) (seq 0 2))))
  ∧ length (List.filter (Rank.passes Rank.scenario_A) (seq 0 2)) = 2%nat.
Proof.
  apply (rank_finder_contiguity Rank.scenario_A 2).
  - lia.
  - vm_compute. reflexivity.
  - intros j Hj. destruct j as [|[|j]]; [reflexivity | reflexivity | lia].
Defined.

(** C4: the returned pair satisfies [0 <= rank_plus <= rank] (so both are
    non-negative), the calculator returns a pair on every input, and on the
    empty input it returns (0, 0). *)
Theorem rank_finder_bounds (amounts : gmap string Rank.Counts) :
  (∃ rank rank_plus,
     Rank.rank_finder amounts = Ok (rank, rank_plus)
     ∧ 0 ≤ rank ∧ 0 ≤ rank_plus ∧ rank_plus ≤ rank)
  ∧ Rank.rank_finder ∅ = Ok (0, 0).
Proof.
  split; [|reflexivity].
  destruct (rank_finder_leading amounts) as [rp [Hr Hb]].
  eexists _, rp. split; [exact Hr | lia].
Qed.

(** C6: raising the completion count of one bucket, every other count being
    kept (or giving an entry to a bucket that had none), never lowers the
    computed rank. *)
Theorem rank_finder_monotone (amounts : gmap string Rank.Counts) (k : string)
    (c' g' s' b' : Z) :
  match amounts !! k with
  | Some (c, g, s, b) => c ≤ c' ∧ g' = g ∧ s' = s ∧ b' = b
  | None => True
  end →
  ∃ rank rank',
    Rank.rank_of (Rank.rank_finder amounts) = Some rank
    ∧ Rank.rank_of (Rank.rank_finder (<[k := (c', g', s', b')]> amounts))
      = Some rank'
    ∧ rank ≤ rank'.
Proof.
  intros Hk.
  destruct (rank_finder_leading amounts) as [rp [Hr _]].
  destruct (rank_finder_leading (<[k := (c', g', s', b')]> amounts))
    as [rp' [Hr' _]].
  rewrite Hr, Hr'. eexists _, _. split; [reflexivity|]. split; [reflexivity|].
  apply inj_le. apply leading_mono. apply bucket_passes_raise. exact Hk.
Qed.

Lemma rank_finder_monotone_witness :
  ∃ rank rank',
    Rank.rank_of (Rank.rank_finder Rank.scenario_B) = Some rank
    ∧ Rank.rank_of
        (Rank.rank_finder (<["Medium"%string := (11, 5, 0, 0)]> Rank.scenario_B))
      = Some rank'
    ∧ rank ≤ rank'.
Proof.
  apply (rank_finder_monotone Rank.scenario_B "Medium" 11 5 0 0).
  assert (Hk : Rank.scenario_B !! "Medium"%string = Some (10, 5, 0, 0))
    by (vm_compute; reflexivity).
  rewrite Hk. lia.
Defined.

(** C7: with thresholds (10,10,10,10,5,2) over (Easy, Medium, Hard,
    Very Hard, Extreme, Hell), scenario A gives (2, 0) and scenario B gives
    (2, 1). *)
Theorem rank_finder_scenarios :
  Rank._RANK_THRESHOLD = [10; 10; 10; 10; 5; 2]
  ∧ Rank.ranked_buckets
    = ["Easy"; "Medium"; "Hard"; "Very Hard"; "Extreme"; "Hell"]%string
  ∧ Rank.rank_finder Rank.scenario_A = Ok (2, 0)
  ∧ Rank.rank_finder Rank.scenario_B = Ok (2, 1).
Proof. repeat split; vm_compute; reflexivity. Qed.

(** * Properties of the role reconciler *)

Section ReconcilerFacts.

Import Reconciler.

(** ** The two loops over [new_roles] *)

Lemma elem_of_append_missing (l : list Z) (a x : Z) :
  x ∈ append_missing l a ↔ x ∈ l ∨ x = a.
Proof.
  unfold append_missing. case_decide.
  - split; [auto | intros [?| ->]; assumption].
  - rewrite elem_of_app, list_elem_of_singleton. tauto.
Qed.

Lemma NoDup_append_missing (l : list Z) (a : Z) :
  NoDup l → NoDup (append_missing l a).
Proof.
  intros Hl. unfold append_missing. case_decide; [assumption|].
  apply NoDup_app. split; [assumption|]. split.
  - intros x Hx Hxa. apply list_elem_of_singleton in Hxa. congruence.
  - apply NoDup_singleton.
Qed.

Lemma foldl_append_missing (adds : list Z) :
  ∀ l : list Z,
    NoDup l →
    NoDup (foldl append_missing l adds)
    ∧ ∀ x, x ∈ foldl append_missing l adds ↔ x ∈ l ∨ x ∈ adds.
Proof.
  induction adds as [|a adds IH]; intros l Hl; simpl.
  - split; [assumption|]. intros x. rewrite elem_of_nil. tauto.
  - destruct (IH (append_missing l a) (NoDup_append_missing l a Hl))
      as [Hnd Hin].
    split; [assumption|]. intros x.
    rewrite Hin, elem_of_append_missing, elem_of_cons. tauto.
Qed.

Lemma py_remove_NoDup (r : Z) (l : list Z) :
  NoDup l →
  NoDup (py_remove r l) ∧ ∀ x, x ∈ py_remove r l ↔ x ∈ l ∧ x ≠ r.
Proof.
  induction l as [|y l IH]; intros Hl; simpl.
  - split; [constructor|]. intros x. rewrite elem_of_nil. tauto.
  - apply NoDup_cons in Hl as [Hy Hl]. destruct (IH Hl) as [Hnd Hin].
    case_decide as Hyr.
    + subst y. split; [assumption|]. intros x. rewrite elem_of_cons.
      split; [intros Hx; split; [auto | congruence] | tauto].
    + split.
      * apply NoDup_cons. split; [|assumption]. rewrite Hin. tauto.
      * intros x. rewrite !elem_of_cons, Hin.
        split; [intros [->|[? ?]]; auto | tauto].
Qed.

Lemma remove_held_NoDup (l : list Z) (r : Z) :
  NoDup l →
  NoDup (remove_held l r) ∧ ∀ x, x ∈ remove_held l r ↔ x ∈ l ∧ x ≠ r.
Proof.
  intros Hl. unfold remove_held. case_decide as Hr.
  - apply py_remove_NoDup. assumption.
  - split; [assumption|]. intros x.
    split; [intros Hx; split; [assumption | congruence] | tauto].
Qed.

Lemma foldl_remove_held (rems : list Z) :
  ∀ l : list Z,
    NoDup l →
    NoDup (foldl remove_held l rems)
    ∧ ∀ x, x ∈ foldl remove_held l rems ↔ x ∈ l ∧ x ∉ rems.
Proof.
  induction rems as [|r rems IH]; intros l Hl; simpl.
  - split; [assumption|]. intros x. rewrite elem_of_nil. tauto.
  - destruct (remove_held_NoDup l r Hl) as [Hnd Hin].
    destruct (IH _ Hnd) as [Hnd' Hin'].
    split; [assumption|]. intros x.
    rewrite Hin', Hin, not_elem_of_cons. tauto.
Qed.

(** ** Slices of a ladder without repetition *)

Lemma slices_disjoint (l : list Z) (n : Z) (x : Z) :
  NoDup l → 0 ≤ n → x ∈ slice_to l n → x ∉ slice_from l (n + 1).
Proof.
  intros Hl Hn Hto Hfrom. unfold slice_to, slice_from in *.
  destruct (n <? 0) eqn:E1; [apply Z.ltb_lt in E1; lia|].
  destruct (n + 1 <? 0) eqn:E2; [apply Z.ltb_lt in E2; lia|].
  apply elem_of_take in Hto as (i & Hi & Hlt).
  apply list_elem_of_lookup in Hfrom as (j & Hj).
  rewrite lookup_drop in Hj.
  pose proof (proj1 (NoDup_alt l) Hl _ _ _ Hi Hj). lia.
Qed.

Lemma slice_to_subseteq (l : list Z) (n x : Z) : x ∈ slice_to l n → x ∈ l.
Proof.
  unfold slice_to. destruct (n <? 0); intros Hx;
    apply elem_of_take in Hx as (i & Hi & _);
    apply list_elem_of_lookup; eauto.
Qed.

Lemma slice_from_subseteq (l : list Z) (n x : Z) :
  x ∈ slice_from l n → x ∈ l.
Proof.
  unfold slice_from. destruct (n <? 0); intros Hx;
    apply list_elem_of_lookup in Hx as (i & Hi);
    rewrite lookup_drop in Hi; apply list_elem_of_lookup; eauto.
Qed.

Variables (ranks ranks_plus : list Z).

Lemma added_filter (held : list Z) (rank rank_plus : Z) :
  added ranks ranks_plus held rank rank_plus
  = filter (λ x, x ∉ held) (target ranks ranks_plus rank rank_plus).
Proof. unfold added, target. rewrite filter_app. reflexivity. Qed.

Lemma removed_filter (held : list Z) (rank rank_plus : Z) :
  removed ranks ranks_plus held rank rank_plus
  = filter (λ x, x ∈ held) (scanned ranks ranks_plus rank rank_plus).
Proof. unfold removed, scanned. rewrite filter_app. reflexivity. Qed.

Lemma target_scanned_disjoint (rank rank_plus x : Z) :
  NoDup (rank_roles ranks ++ rank_plus_roles ranks_plus) → 0 ≤ rank → 0 ≤ rank_plus →
  x ∈ target ranks ranks_plus rank rank_plus →
  x ∉ scanned ranks ranks_plus rank rank_plus.
Proof.
  intros Hnd Hr Hrp. apply NoDup_app in Hnd as (Hn1 & Hdisj & Hn2).
  unfold target, scanned. rewrite !elem_of_app.
  intros [Ht|Ht] [Hs|Hs].
  - exact (slices_disjoint _ _ _ Hn1 Hr Ht Hs).
  - apply slice_to_subseteq in Ht. apply slice_from_subseteq in Hs.
    exact (Hdisj _ Ht Hs).
  - apply slice_to_subseteq in Ht. apply slice_from_subseteq in Hs.
    exact (Hdisj _ Hs Ht).
  - exact (slices_disjoint _ _ _ Hn2 Hrp Ht Hs).
Qed.

Lemma elem_of_new_roles (held : list Z) (rank rank_plus x : Z) :
  NoDup held →
  x ∈ new_roles ranks ranks_plus held rank rank_plus
  ↔ (x ∈ held ∨ x ∈ added ranks ranks_plus held rank rank_plus)
    ∧ x ∉ removed ranks ranks_plus held rank rank_plus.
Proof.
  intros Hh. unfold new_roles.
  destruct (foldl_append_missing
              (added ranks ranks_plus held rank rank_plus) held Hh)
    as [Hnd Hin].
  destruct (foldl_remove_held
              (removed ranks ranks_plus held rank rank_plus) _ Hnd)
    as [_ Hin'].
  rewrite Hin', Hin. reflexivity.
Qed.

(** Once the member holds the roles of [new_roles], nothing is left to add
    or to remove. *)
Lemma settled (held held1 : list Z) (rank rank_plus : Z) :
  NoDup (rank_roles ranks ++ rank_plus_roles ranks_plus) → NoDup held →
  0 ≤ rank → 0 ≤ rank_plus →
  (∀ x, x ∈ held1 ↔ x ∈ new_roles ranks ranks_plus held rank rank_plus) →
  added ranks ranks_plus held1 rank rank_plus = []
  ∧ removed ranks ranks_plus held1 rank rank_plus = [].
Proof.
  intros Hnd Hh Hr Hrp Hsame.
  split; apply elem_of_nil_inv; intros x.
  - rewrite added_filter, list_elem_of_filter, Hsame, elem_of_new_roles
      by assumption.
    intros [Hnot Ht]. apply Hnot. split.
    + destruct (decide (x ∈ held)) as [|Hx]; [auto|]. right.
      rewrite added_filter, list_elem_of_filter. auto.
    + rewrite removed_filter, list_elem_of_filter. intros [_ Hs].
      exact (target_scanned_disjoint _ _ _ Hnd Hr Hrp Ht Hs).
  - rewrite removed_filter, list_elem_of_filter, Hsame, elem_of_new_roles
      by assumption.
    intros [[[Hx|Hx] Hnot] Hs].
    + apply Hnot. rewrite removed_filter, list_elem_of_filter. auto.
    + rewrite added_filter, list_elem_of_filter in Hx. destruct Hx as [_ Ht].
      exact (target_scanned_disjoint _ _ _ Hnd Hr Hrp Ht Hs).
Qed.

(** What [removed] holds: the held roles from ladder index [rank + 2] on
    and the held plus roles from plus-ladder index [rank_plus + 2] on, the
    ladders being indexed as [ranks()] and [ranks_plus()] are. *)
Lemma elem_of_slice_from_tail (l : list Z) (n x : Z) :
  0 ≤ n →
  x ∈ slice_from (tail l) (n + 1)
  ↔ ∃ i, (Z.to_nat n + 2 ≤ i)%nat ∧ l !! i = Some x.
Proof.
  intros Hn. unfold slice_from.
  destruct (n + 1 <? 0) eqn:E; [apply Z.ltb_lt in E; lia|].
  rewrite list_elem_of_lookup. split.
  - intros (j & Hj). rewrite lookup_drop, lookup_tail in Hj.
    eexists. split; [|exact Hj]. lia.
  - intros (i & Hi & Hx). exists (i - (Z.to_nat n + 2))%nat.
    rewrite lookup_drop, lookup_tail. rewrite <- Hx. f_equal. lia.
Qed.

Lemma elem_of_removed (held : list Z) (rank rank_plus x : Z) :
  0 ≤ rank → 0 ≤ rank_plus →
  x ∈ removed ranks ranks_plus held rank rank_plus
  ↔ x ∈ held
    ∧ ((∃ i, (Z.to_nat rank + 2 ≤ i)%nat ∧ ranks !! i = Some x)
       ∨ (∃ i, (Z.to_nat rank_plus + 2 ≤ i)%nat
               ∧ ranks_plus !! i = Some x)).
Proof.
  intros Hr Hrp. unfold removed, rank_roles, rank_plus_roles.
  rewrite elem_of_app, !list_elem_of_filter,
    !elem_of_slice_from_tail by assumption.
  tauto.
Qed.

(** ** Runs of [reconcile] *)

Ltac run_reconcile :=
  unfold reconcile, roles, when, suppress, edit, set_rank, dispatch, send,
    log, mbind, M_bind, mret, M_ret; simpl.

Lemma roles_differ_false (new held : list Z) :
  roles_differ new held = false → ∀ x, x ∈ new ↔ x ∈ held.
Proof.
  unfold roles_differ. intros Hd x. apply bool_decide_eq_false in Hd.
  destruct (decide (list_to_set new =@{gset Z} list_to_set held)) as [E|E];
    [|contradiction].
  rewrite <- (elem_of_list_to_set (C := gset Z) x new), E.
  apply elem_of_list_to_set.
Qed.

Lemma roles_differ_refl (held : list Z) : roles_differ held held = false.
Proof. unfold roles_differ. apply bool_decide_eq_false. auto. Qed.

(** After a run that returned, the member holds the roles of [new_roles]. *)
Lemma reconcile_roles_after (f : Faults) (user_id rank rank_plus : Z)
    (w w1 : World) :
  reconcile ranks ranks_plus f user_id rank rank_plus w = (Ok tt, w1) →
  ∀ x, x ∈ member_roles w1
       ↔ x ∈ new_roles ranks ranks_plus (member_roles w) rank rank_plus.
Proof.
  run_reconcile.
  destruct (roles_differ _ _) eqn:Hd.
  - destruct (edit_raises f); simpl; [discriminate|].
    destruct (set_raises f); simpl; [discriminate|].
    destruct (nonempty (added _ _ _ _ _)),
             (nonempty (removed _ _ _ _ _)), (send_raises f); simpl;
      intros [= <-]; reflexivity.
  - pose proof (roles_differ_false _ _ Hd) as Hsame.
    destruct (nonempty (added _ _ _ _ _)),
             (nonempty (removed _ _ _ _ _)), (send_raises f); simpl;
      intros [= <-]; simpl; intros x; symmetry; apply Hsame.
Qed.

(** With nothing to add and nothing to remove, a run makes no call and
    leaves the world as it is. *)
Lemma reconcile_settled (f : Faults) (user_id rank rank_plus : Z) (w : World) :
  added ranks ranks_plus (member_roles w) rank rank_plus = [] →
  removed ranks ranks_plus (member_roles w) rank rank_plus = [] →
  reconcile ranks ranks_plus f user_id rank rank_plus w = (Ok tt, w).
Proof.
  intros Ha Hr. run_reconcile. unfold new_roles. rewrite Ha, Hr. simpl.
  rewrite roles_differ_refl. reflexivity.
Qed.

Lemma reconcile_idempotent (f f' : Faults) (user_id rank rank_plus : Z)
    (w w1 : World) :
  NoDup (rank_roles ranks ++ rank_plus_roles ranks_plus) →
  NoDup (member_roles w) →
  0 ≤ rank → 0 ≤ rank_plus →
  reconcile ranks ranks_plus f user_id rank rank_plus w = (Ok tt, w1) →
  reconcile ranks ranks_plus f' user_id rank rank_plus w1 = (Ok tt, w1).
Proof.
  intros Hnd Hh Hr Hrp Hrun.
  pose proof (reconcile_roles_after _ _ _ _ _ _ Hrun) as Hsame.
  destruct (settled _ _ _ _ Hnd Hh Hr Hrp Hsame) as [Ha Hrem].
  apply reconcile_settled; assumption.
Qed.

(** A run in which the grant set changes and neither [user.edit] nor
    [database.set] raises. *)
Lemma reconcile_differ (f : Faults) (user_id rank rank_plus : Z) (w : World) :
  edit_raises f = false → set_raises f = false →
  roles_differ (new_roles ranks ranks_plus (member_roles w) rank rank_plus)
               (member_roles w) = true →
  reconcile ranks ranks_plus f user_id rank rank_plus w
  = (Ok tt,
     {| member_roles :=
          new_roles ranks ranks_plus (member_roles w) rank rank_plus;
        users := alter (λ row, <["rank"%string := rank]> row)
                       user_id (users w);
        calls :=
          calls w
          ++ [user_edit user_id
                (new_roles ranks ranks_plus (member_roles w) rank rank_plus);
              database_set_rank user_id rank]
          ++ (if nonempty (added ranks ranks_plus (member_roles w)
                                 rank rank_plus)
              then [dispatch_newsfeed_role user_id
                      (added ranks ranks_plus (member_roles w)
                             rank rank_plus)]
              else [])
          ++ (if nonempty (added ranks ranks_plus (member_roles w)
                                 rank rank_plus)
                 || nonempty (removed ranks ranks_plus (member_roles w)
                                      rank rank_plus)
              then [user_send user_id
                      (added ranks ranks_plus (member_roles w)
                             rank rank_plus)
                      (removed ranks ranks_plus (member_roles w)
                               rank rank_plus)]
              else []) |}).
Proof.
  intros He Hs Hd. run_reconcile. rewrite Hd, He. simpl. rewrite Hs. simpl.
  destruct (nonempty (added _ _ _ _ _)),
           (nonempty (removed _ _ _ _ _)), (send_raises f); simpl;
    rewrite <- ?app_assoc; simpl; reflexivity.
Qed.

End ReconcilerFacts.

(** C2, as stated, fails.  Player 7 holds the tier-3 role 103 and is stored
    with rank 3 and rank_plus 0; the completions give (rank, rank_plus) =
    (1, 1).  The grant set changes and the delta is applied, yet the stored
    rank_plus stays 0 (only the column [rank] is written), and the one event
    carries the added roles 101 and 201 but not the removed role 103. *)
Lemma auto_role_event_and_rank_plus :
  let w := Reconciler.ex_world [103] in
  let w' := (Reconciler.auto_role Reconciler.ex_ranks Reconciler.ex_ranks_plus
               Reconciler.no_faults 7 Rank.easy_gold w).2 in
  Rank.rank_finder Rank.easy_gold = Ok (1, 1)
  ∧ Reconciler.roles_differ
      (Reconciler.new_roles Reconciler.ex_ranks Reconciler.ex_ranks_plus
         [103] 1 1) [103] = true
  ∧ Reconciler.removed Reconciler.ex_ranks Reconciler.ex_ranks_plus
      [103] 1 1 = [103]
  ∧ Reconciler.calls w'
    = [Reconciler.user_edit 7 [101; 201];
       Reconciler.database_set_rank 7 1;
       Reconciler.dispatch_newsfeed_role 7 [101; 201];
       Reconciler.user_send 7 [101; 201] [103]]
  ∧ Reconciler.stored w' 7 "rank" = Some 1
  ∧ Reconciler.stored w' 7 "rank_plus" = Some 0
  ∧ Reconciler.stored w' 7 "rank_plus" ≠ Some 1.
Proof. vm_compute. repeat split; try reflexivity. discriminate. Qed.

(** C2 (amended): when the grant set that [auto_role] computes differs from
    the one the player holds, and neither the membership system nor the
    storage engine raises, [auto_role] applies the new roles, writes the new
    rank to the column [rank] of the player's row and to no other column (so
    rank_plus is not persisted), and dispatches a rank-change event that
    carries the added roles only, and only when some role was added. *)
Theorem auto_role_applies_delta (ranks ranks_plus : list Z)
    (f : Reconciler.Faults) (user_id : Z) (amounts : gmap string Rank.Counts)
    (w : Reconciler.World) (rank rank_plus : Z) :
  let held := Reconciler.member_roles w in
  let new := Reconciler.new_roles ranks ranks_plus held rank rank_plus in
  let add := Reconciler.added ranks ranks_plus held rank rank_plus in
  let rem := Reconciler.removed ranks ranks_plus held rank rank_plus in
  Rank.rank_finder amounts = Ok (rank, rank_plus) →
  Reconciler.edit_raises f = false →
  Reconciler.set_raises f = false →
  Reconciler.roles_differ new held = true →
  ∃ w',
    Reconciler.auto_role ranks ranks_plus f user_id amounts w = (Ok tt, w')
    ∧ Reconciler.member_roles w' = new
    ∧ Reconciler.users w'
      = alter (λ row, <["rank"%string := rank]> row) user_id
              (Reconciler.users w)
    ∧ (∀ column, column ≠ "rank"%string →
         Reconciler.stored w' user_id column
         = Reconciler.stored w user_id column)
    ∧ Reconciler.calls w'
      = Reconciler.calls w
        ++ [Reconciler.user_edit user_id new;
            Reconciler.database_set_rank user_id rank]
        ++ (if Reconciler.nonempty add
            then [Reconciler.dispatch_newsfeed_role user_id add] else [])
        ++ (if Reconciler.nonempty add || Reconciler.nonempty rem
            then [Reconciler.user_send user_id add rem] else []).
Proof.
  intros held new add rem Hrank He Hs Hd.
  unfold Reconciler.auto_role. rewrite Hrank.
  rewrite (reconcile_differ ranks ranks_plus f user_id rank rank_plus w He Hs Hd).
  eexists. split; [reflexivity|]. simpl.
  split; [reflexivity|]. split; [reflexivity|]. split; [|reflexivity].
  intros column Hc. unfold Reconciler.stored. simpl.
  rewrite lookup_alter. case_decide as Hu; [|congruence].
  destruct (Reconciler.users w !! user_id) as [row|]; simpl; [|reflexivity].
  apply lookup_insert_ne. congruence.
Qed.

Lemma auto_role_applies_delta_witness :
  ∃ w',
    Reconciler.auto_role Reconciler.ex_ranks Reconciler.ex_ranks_plus
      Reconciler.no_faults 7 Rank.easy_gold (Reconciler.ex_world [103])
    = (Ok tt, w')
    ∧ Reconciler.member_roles w' = [101; 201].
Proof.
  destruct (auto_role_applies_delta Reconciler.ex_ranks
              Reconciler.ex_ranks_plus Reconciler.no_faults 7 Rank.easy_gold
              (Reconciler.ex_world [103]) 1 1)
    as (w' & Hrun & Hroles & _).
  - vm_compute. reflexivity.
  - reflexivity.
  - reflexivity.
  - vm_compute. reflexivity.
  - exists w'. split; [exact Hrun | exact Hroles].
Defined.

(** C5 fails on the code: with rank 1 and rank_plus 0 the player holds the
    plain role 102 at ladder index 2 and the plus role 201 at ladder index
    1, both above the target level, and [removed] is empty.  The scan starts
    at [rank_roles[rank + 1]], which is [ranks()[rank + 2]]: the first role
    above the target is skipped. *)
Theorem removed_skips_first_role_above_target :
  Reconciler.ex_ranks !! 2%nat = Some 102
  ∧ Reconciler.ex_ranks_plus !! 1%nat = Some 201
  ∧ Reconciler.removed Reconciler.ex_ranks Reconciler.ex_ranks_plus
      [101; 102; 201] 1 0 = []
  ∧ Reconciler.new_roles Reconciler.ex_ranks Reconciler.ex_ranks_plus
      [101; 102; 201] 1 0 = [101; 102; 201]
  ∧ Reconciler.removed Reconciler.ex_ranks Reconciler.ex_ranks_plus
      [101; 103; 202] 1 0 = [103; 202].
Proof. vm_compute. repeat split; reflexivity. Qed.

(** C8: with ladders that list every role once and a player whose held roles
    are a set, a second run of [auto_role] right after a run that returned,
    on the same completions, makes no call at all (no [user.edit], no
    [database.set], no event, no message) and leaves the world as the first
    run left it, whatever the external systems would have answered. *)
Theorem auto_role_idempotent (ranks ranks_plus : list Z)
    (f f' : Reconciler.Faults) (user_id : Z)
    (amounts : gmap string Rank.Counts) (w w1 : Reconciler.World) :
  NoDup (Reconciler.rank_roles ranks ++ Reconciler.rank_plus_roles ranks_plus) →
  NoDup (Reconciler.member_roles w) →
  Reconciler.auto_role ranks ranks_plus f user_id amounts w = (Ok tt, w1) →
  Reconciler.auto_role ranks ranks_plus f' user_id amounts w1 = (Ok tt, w1)
  ∧ Reconciler.calls
      (Reconciler.auto_role ranks ranks_plus f' user_id amounts w1).2
    = Reconciler.calls w1.
Proof.
  intros Hnd Hh. unfold Reconciler.auto_role.
  destruct (rank_finder_leading amounts) as (rank_plus & Hr & Hb).
  rewrite Hr. intros Hrun.
  assert (H0 : 0 ≤ Z.of_nat (Rank.leading amounts 0 Rank.ranked_buckets))
    by lia.
  assert (H1 : 0 ≤ rank_plus) by lia.
  rewrite (reconcile_idempotent ranks ranks_plus f f' user_id _ rank_plus
             w w1 Hnd Hh H0 H1 Hrun).
  split; reflexivity.
Qed.

Lemma auto_role_idempotent_witness :
  let w1 := (Reconciler.auto_role Reconciler.ex_ranks Reconciler.ex_ranks_plus
               Reconciler.no_faults 7 Rank.easy_gold
               (Reconciler.ex_world [103])).2 in
  Reconciler.auto_role Reconciler.ex_ranks Reconciler.ex_ranks_plus
    Reconciler.no_faults 7 Rank.easy_gold w1 = (Ok tt, w1).
Proof.
  intros w1.
  apply (auto_role_idempotent Reconciler.ex_ranks Reconciler.ex_ranks_plus
           Reconciler.no_faults Reconciler.no_faults 7 Rank.easy_gold
           (Reconciler.ex_world [103]) w1).
  - apply (bool_decide_unpack _). vm_compute. exact I.
  - apply (bool_decide_unpack _). vm_compute. exact I.
  - vm_compute. reflexivity.
Defined.

(** * Properties of the submission writer *)

Section SubmissionFacts.

Import Submission.

Lemma execute_all_ok (sts : list (list Row)) :
  ∀ db, fails_after db = None →
    execute_all sts db
    = (Ok tt, {| rows := rows db ++ concat sts; fails_after := None |}).
Proof.
  induction sts as [|st rest IH]; intros [rws fa] Hfa; simpl in *; subst fa.
  - rewrite app_nil_r. reflexivity.
  - unfold mbind, M_bind, execute. simpl.
    rewrite IH by reflexivity. simpl. rewrite <- app_assoc. reflexivity.
Qed.

(** A fault at statement number [n] (counted from 0) stops the run there:
    the rows of the [n] statements before it stay, nothing else is written. *)
Lemma execute_all_fault (sts : list (list Row)) :
  ∀ db n, fails_after db = Some n → (n < length sts)%nat →
    execute_all sts db
    = (Raise StorageError,
       {| rows := rows db ++ concat (take n sts); fails_after := Some 0%nat |}).
Proof.
  induction sts as [|st rest IH]; intros [rws fa] n Hfa Hn; simpl in *;
    subst fa; [lia|].
  unfold mbind, M_bind, execute. simpl. destruct n as [|n]; simpl.
  - rewrite app_nil_r. reflexivity.
  - rewrite (IH _ n) by (simpl; auto with lia). simpl.
    rewrite <- app_assoc. reflexivity.
Qed.

Variable DIFFICULTIES_RANGES : gmap string (float * float).

(** On a submission whose lists are present and whose difficulty is a key of
    the range table, [insert_all] is the sequence of its statements. *)
Lemma insert_all_statements (s : MapSubmission) (mod_ : bool)
    (ms rs gs : list string) (d : string) (low high : float) (db : Database) :
  mechanics s = Some ms → restrictions s = Some rs → guides s = Some gs →
  difficulty s = Some d → DIFFICULTIES_RANGES !! d = Some (low, high) →
  insert_all DIFFICULTIES_RANGES s mod_ db
  = execute_all (statements s ms rs gs low mod_) db.
Proof.
  intros Hm Hr Hg Hd Hlow.
  unfold insert_all, insert_maps, insert_mechanics, insert_restrictions,
    insert_map_creators, insert_map_ratings, insert_guide, insert_medals,
    insert_timestamp, base_difficulty, statements, medal_rows,
    timestamp_rows, guide_rows, set, set_many.
  rewrite Hm, Hr, Hg, Hd, Hlow.
  unfold iter, when, mbind, M_bind, mret, M_ret. simpl.
  destruct db as [rws [n|]];
    destruct (map _ (List.filter str_truthy gs)) as [|g0 gl];
    destruct (medals s) as [[[g sv] b]|]; destruct mod_; simpl;
    unfold mbind, M_bind, mret, M_ret, execute; simpl;
    try reflexivity;
    do 8 (destruct n as [|n]; [reflexivity|]); reflexivity.
Qed.

End SubmissionFacts.

Lemma concat_optional {A} (l : list A) :
  concat (match l with [] => [] | x :: r => [x :: r] end) = l.
Proof. destruct l; simpl; [reflexivity | rewrite app_nil_r; reflexivity]. Qed.

(** C1, as stated, fails: a storage error at the fifth statement (the
    rating row, after the four groups maps, mechanics, restrictions and
    creators) makes [insert_all] return that error with the rows of the
    first four groups persisted. *)
Lemma insert_all_partial_write :
  Submission.insert_all Submission.ex_ranges Submission.ex_submission false
    (Submission.empty_database (Some 4%nat))
  = (Raise StorageError,
     {| Submission.rows :=
          [Submission.maps_row "Hanamura" (Some ["Classic"%string]) "ABC12"
             None false 12;
           Submission.map_mechanics_row "ABC12" "Bhop";
           Submission.map_mechanics_row "ABC12" "Dash";
           Submission.map_restrictions_row "ABC12" "Dash Start";
           Submission.map_creators_row "ABC12" 7];
        Submission.fails_after := Some 0%nat |})
  ∧ Submission.rows
      (Submission.insert_all Submission.ex_ranges Submission.ex_submission
         false (Submission.empty_database (Some 4%nat))).2 ≠ [].
Proof. split; [vm_compute; reflexivity | vm_compute; discriminate]. Qed.

(** C1 (amended): on a fully populated submission, when statement number [n]
    (counted from 0) of the run fails with a storage error, [insert_all]
    returns that error, the rows of the [n] statements executed before it
    stay persisted, and no row of the failing statement or of a later one is
    written. *)
Theorem insert_all_keeps_earlier_groups
    (DIFFICULTIES_RANGES : gmap string (float * float))
    (s : Submission.MapSubmission) (mod_ : bool) (ms rs gs : list string)
    (d : string) (low high : float) (db : Submission.Database) (n : nat) :
  Submission.mechanics s = Some ms →
  Submission.restrictions s = Some rs →
  Submission.guides s = Some gs →
  Submission.difficulty s = Some d →
  DIFFICULTIES_RANGES !! d = Some (low, high) →
  Submission.fails_after db = Some n →
  (n < length (Submission.statements s ms rs gs low mod_))%nat →
  Submission.insert_all DIFFICULTIES_RANGES s mod_ db
  = (Raise StorageError,
     {| Submission.rows :=
          Submission.rows db
          ++ concat (take n (Submission.statements s ms rs gs low mod_));
        Submission.fails_after := Some 0%nat |}).
Proof.
  intros Hm Hr Hg Hd Hlow Hfa Hn.
  rewrite (insert_all_statements DIFFICULTIES_RANGES s mod_ ms rs gs d low
             high db Hm Hr Hg Hd Hlow).
  apply execute_all_fault; assumption.
Qed.

Lemma insert_all_keeps_earlier_groups_witness :
  Submission.insert_all Submission.ex_ranges Submission.ex_submission false
    (Submission.empty_database (Some 4%nat))
  = (Raise StorageError,
     {| Submission.rows :=
          Submission.rows (Submission.empty_database (Some 4%nat))
          ++ concat (take 4 (Submission.statements Submission.ex_submission
                               ["Bhop"; "Dash"]%string ["Dash Start"%string]
                               [""; "https://guide"]%string 1%float false));
        Submission.fails_after := Some 0%nat |}).
Proof.
  apply (insert_all_keeps_earlier_groups Submission.ex_ranges
           Submission.ex_submission false ["Bhop"; "Dash"]%string
           ["Dash Start"%string] [""; "https://guide"]%string "Easy"
           1%float 2%float (Submission.empty_database (Some 4%nat)) 4).
  - reflexivity.
  - reflexivity.
  - reflexivity.
  - reflexivity.
  - vm_compute. reflexivity.
  - reflexivity.
  - vm_compute. lia.
Defined.

(** C9: on a fully populated submission and without storage error,
    [insert_all] writes the map row, one row per mechanic, one per
    restriction, the creator row and the rating row unconditionally, one
    guide row per non-empty guide link and none for an empty link, the medal
    row exactly when medals were supplied, and the timestamp row exactly
    when the flag [mod] is false. *)
Theorem insert_all_rows
    (DIFFICULTIES_RANGES : gmap string (float * float))
    (s : Submission.MapSubmission) (mod_ : bool) (ms rs gs : list string)
    (d : string) (low high : float) (db : Submission.Database) :
  Submission.mechanics s = Some ms →
  Submission.restrictions s = Some rs →
  Submission.guides s = Some gs →
  Submission.difficulty s = Some d →
  DIFFICULTIES_RANGES !! d = Some (low, high) →
  Submission.fails_after db = None →
  Submission.insert_all DIFFICULTIES_RANGES s mod_ db
  = (Ok tt,
     {| Submission.rows :=
          Submission.rows db
          ++ [Submission.maps_row (Submission.map_name s)
                (Submission.map_types s) (Submission.map_code s)
                (Submission.description s) mod_
                (Submission.checkpoint_count s)]
          ++ map (Submission.map_mechanics_row (Submission.map_code s)) ms
          ++ map (Submission.map_restrictions_row (Submission.map_code s)) rs
          ++ [Submission.map_creators_row (Submission.map_code s)
                (Submission.creator s);
              Submission.map_ratings_row (Submission.map_code s)
                (Submission.creator s) low]
          ++ map (Submission.guides_row (Submission.map_code s))
                 (List.filter Submission.str_truthy gs)
          ++ (match Submission.medals s with
              | Some _ =>
                [Submission.map_medals_row (Submission.gold s)
                   (Submission.silver s) (Submission.bronze s)
                   (Submission.map_code s)]
              | None => []
              end)
          ++ (if mod_ then []
              else [Submission.map_submission_dates_row
                      (Submission.creator s) (Submission.map_code s)]);
        Submission.fails_after := None |}).
Proof.
  intros Hm Hr Hg Hd Hlow Hfa.
  rewrite (insert_all_statements DIFFICULTIES_RANGES s mod_ ms rs gs d low
             high db Hm Hr Hg Hd Hlow).
  rewrite execute_all_ok by assumption.
  f_equal. f_equal. f_equal. unfold Submission.statements.
  rewrite !concat_app, !concat_optional. simpl. rewrite ?app_nil_r.
  rewrite <- !app_assoc. reflexivity.
Qed.

(** Scenario D: of the two guide links of the example, one empty, exactly
    one guide row is written. *)
Lemma insert_all_rows_witness :
  Submission.insert_all Submission.ex_ranges Submission.ex_submission false
    (Submission.empty_database None)
  = (Ok tt,
     {| Submission.rows :=
          [Submission.maps_row "Hanamura" (Some ["Classic"%string]) "ABC12"
             None false 12;
           Submission.map_mechanics_row "ABC12" "Bhop";
           Submission.map_mechanics_row "ABC12" "Dash";
           Submission.map_restrictions_row "ABC12" "Dash Start";
           Submission.map_creators_row "ABC12" 7;
           Submission.map_ratings_row "ABC12" 7 1%float;
           Submission.guides_row "ABC12" "https://guide";
           Submission.map_medals_row None (Some 30.5%float) (Some 45%float)
             "ABC12";
           Submission.map_submission_dates_row 7 "ABC12"];
        Submission.fails_after := None |}).
Proof.
  apply (insert_all_rows Submission.ex_ranges Submission.ex_submission false
           ["Bhop"; "Dash"]%string ["Dash Start"%string]
           [""; "https://guide"]%string "Easy" 1%float 2%float
           (Submission.empty_database None)).
  - reflexivity.
  - reflexivity.
  - reflexivity.
  - reflexivity.
  - vm_compute. reflexivity.
  - reflexivity.
Defined.

(** C10: when medals are present, an accessor whose cutoff equals zero
    returns [None]; the medal is then left out of the formatted display,
    and the medal row, written with the three accessors, holds a null in
    its column. *)
Theorem zero_cutoff_is_absent
    (GOLD SILVER BRONZE : string) (format_float : float → string)
    (s : Submission.MapSubmission) (g sv b : float)
    (db : Submission.Database) :
  Submission.medals s = Some (g, sv, b) →
  Submission.fails_after db = None →
  Submission.insert_medals s db
  = (Ok tt,
     {| Submission.rows :=
          Submission.rows db
          ++ [Submission.map_medals_row (Submission.gold s)
                (Submission.silver s) (Submission.bronze s)
                (Submission.map_code s)];
        Submission.fails_after := None |})
  ∧ (PrimFloat.eqb g 0 = true →
     Submission.gold s = None
     ∧ Submission.formatted_medals GOLD SILVER BRONZE format_float s
       = Submission.medal_entry format_float SILVER (Submission.silver s)
         ++ Submission.medal_entry format_float BRONZE (Submission.bronze s))
  ∧ (PrimFloat.eqb sv 0 = true →
     Submission.silver s = None
     ∧ Submission.formatted_medals GOLD SILVER BRONZE format_float s
       = Submission.medal_entry format_float GOLD (Submission.gold s)
         ++ Submission.medal_entry format_float BRONZE (Submission.bronze s))
  ∧ (PrimFloat.eqb b 0 = true →
     Submission.bronze s = None
     ∧ Submission.formatted_medals GOLD SILVER BRONZE format_float s
       = Submission.medal_entry format_float GOLD (Submission.gold s)
         ++ Submission.medal_entry format_float SILVER (Submission.silver s)).
Proof.
  intros Hm Hfa. split.
  - unfold Submission.insert_medals, when, Submission.set,
      Submission.execute. rewrite Hm. destruct db as [rws fa].
    simpl in Hfa. subst fa. reflexivity.
  - unfold Submission.formatted_medals, Submission.gold, Submission.silver,
      Submission.bronze, Submission.float_truthy.
    rewrite Hm.
    split; [|split]; intros Hz; rewrite Hz; simpl; rewrite ?app_nil_r;
      (split; reflexivity).
Qed.

Lemma zero_cutoff_is_absent_witness :
  Submission.gold Submission.ex_submission = None
  ∧ Submission.insert_medals Submission.ex_submission
      (Submission.empty_database None)
    = (Ok tt,
       {| Submission.rows :=
            [Submission.map_medals_row None (Some 30.5%float)
               (Some 45%float) "ABC12"];
          Submission.fails_after := None |}).
Proof.
  destruct (zero_cutoff_is_absent "G" "S" "B" (λ _, "t"%string)
              Submission.ex_submission 0%float 30.5%float 45%float
              (Submission.empty_database None))
    as (Hrow & Hgold & _).
  - reflexivity.
  - reflexivity.
  - split; [apply Hgold; reflexivity | exact Hrow].
Defined.

(** * Further properties of the rank calculator *)

Section TierFacts.

Import Rank Tiers.

Lemma plus_passes_bucket_passes (amounts : gmap string Counts) (i : nat)
    (diff : string) :
  plus_passes amounts i diff = true → bucket_passes amounts i diff = true.
Proof.
  unfold plus_passes, bucket_passes.
  destruct (amounts !! diff) as [[[[c g] s] b]|]; [|discriminate].
  destruct (_RANK_THRESHOLD !! i); [|discriminate].
  intros H. apply andb_true_iff in H. tauto.
Qed.

(** The walk in closed form: the plus tier grows with the rank while it has
    kept up with it, and is frozen once it has fallen behind. *)
Lemma walk_closed_form (amounts : gmap string Counts) (diffs : list string) :
  ∀ (i : nat) (rank rank_plus : Z),
    (i + length diffs ≤ length _RANK_THRESHOLD)%nat →
    rank_plus ≤ rank →
    walk amounts i diffs rank rank_plus
    = Ok (rank + Z.of_nat (leading amounts i diffs),
          if rank_plus =? rank
          then rank_plus + Z.of_nat (leading_plus amounts i diffs)
          else rank_plus).
Proof.
  induction diffs as [|diff rest IH]; intros i rank rank_plus Hlen Hinv; simpl.
  - rewrite !Z.add_0_r. destruct (rank_plus =? rank); reflexivity.
  - simpl in Hlen. unfold bucket_passes, plus_passes.
    destruct (amounts !! diff) as [[[[completions gold] sv] br]|] eqn:Hd.
    2:{ rewrite !Z.add_0_r. destruct (rank_plus =? rank); reflexivity. }
    destruct (threshold_in_range i) as [t Ht]; [simpl; lia|]. rewrite Ht.
    destruct (completions <? t) eqn:Hlt; simpl.
    { rewrite !Z.add_0_r. destruct (rank_plus =? rank); reflexivity. }
    assert (Hge : (completions >=? t) = true).
    { apply Z.ltb_ge in Hlt. rewrite Z.geb_leb. apply Z.leb_le. lia. }
    rewrite Hge, IH; [|simpl; lia|].
    2:{ destruct ((gold >=? t) && (rank_plus + 1 =? rank + 1)) eqn:E; [|lia].
        apply andb_true_iff in E as [_ E]. apply Z.eqb_eq in E. lia. }
    f_equal. f_equal; [lia|].
    destruct (rank_plus =? rank) eqn:E;
      [apply Z.eqb_eq in E; subst rank_plus | apply Z.eqb_neq in E].
    + rewrite Z.eqb_refl, andb_true_r.
      destruct (gold >=? t).
      * rewrite Z.eqb_refl. lia.
      * destruct (rank =? rank + 1) eqn:E2;
          [apply Z.eqb_eq in E2; lia | lia].
    + destruct (rank_plus + 1 =? rank + 1) eqn:E1;
        [apply Z.eqb_eq in E1; lia|].
      rewrite andb_false_r.
      destruct (rank_plus =? rank + 1) eqn:E2;
        [apply Z.eqb_eq in E2; lia | reflexivity].
Qed.

Lemma rank_finder_closed_form (amounts : gmap string Counts) :
  rank_finder amounts
  = Ok (Z.of_nat (leading amounts 0 ranked_buckets),
        Z.of_nat (leading_plus amounts 0 ranked_buckets)).
Proof.
  unfold rank_finder. rewrite walk_closed_form by (simpl; lia).
  reflexivity.
Qed.

Lemma leading_le_length (amounts : gmap string Counts) (diffs : list string) :
  ∀ i, (leading amounts i diffs ≤ length diffs)%nat.
Proof.
  induction diffs as [|d rest IH]; intros i; simpl; [lia|].
  destruct (bucket_passes amounts i d); [|lia]. specialize (IH (S i)). lia.
Qed.

Lemma leading_plus_le_leading (amounts : gmap string Counts)
    (diffs : list string) :
  ∀ i, (leading_plus amounts i diffs ≤ leading amounts i diffs)%nat.
Proof.
  induction diffs as [|d rest IH]; intros i; simpl; [lia|].
  destruct (plus_passes amounts i d) eqn:Hp; [|lia].
  rewrite (plus_passes_bucket_passes _ _ _ Hp). specialize (IH (S i)). lia.
Qed.

Lemma leading_ext (a a' : gmap string Counts) (diffs : list string) :
  (∀ d, d ∈ diffs → read_counts a d = read_counts a' d) →
  ∀ i, leading a i diffs = leading a' i diffs
       ∧ leading_plus a i diffs = leading_plus a' i diffs.
Proof.
  induction diffs as [|d rest IH]; intros Hagree i; simpl; [auto|].
  assert (Hd : read_counts a d = read_counts a' d)
    by (apply Hagree; left).
  assert (Hb : bucket_passes a i d = bucket_passes a' i d
               ∧ plus_passes a i d = plus_passes a' i d).
  { unfold bucket_passes, plus_passes, read_counts in *.
    destruct (a !! d) as [[[[c g] s] b]|], (a' !! d) as [[[[c' g'] s'] b']|];
      try discriminate; [|auto].
    injection Hd as -> ->. auto. }
  destruct Hb as [-> ->].
  destruct (IH (λ x Hx, Hagree x (list_elem_of_further _ _ _ Hx)) (S i))
    as [-> ->].
  auto.
Qed.

Lemma leading_plus_mono (a a' : gmap string Counts) (diffs : list string) :
  (∀ j d, plus_passes a j d = true → plus_passes a' j d = true) →
  ∀ i, (leading_plus a i diffs ≤ leading_plus a' i diffs)%nat.
Proof.
  intros Himp. induction diffs as [|d rest IH]; intros i; simpl; [lia|].
  destruct (plus_passes a i d) eqn:Hp; [|lia].
  rewrite (Himp _ _ Hp). specialize (IH (S i)). lia.
Qed.

Lemma counts_le_passes (a a' : gmap string Counts) :
  counts_le a a' →
  ∀ j d,
    (bucket_passes a j d = true → bucket_passes a' j d = true)
    ∧ (plus_passes a j d = true → plus_passes a' j d = true).
Proof.
  intros Hle j d. specialize (Hle d).
  unfold bucket_passes, plus_passes, read_counts in *.
  destruct (a !! d) as [[[[c g] s] b]|]; [|split; discriminate].
  destruct (Hle c g eq_refl) as (c' & g' & Hd' & Hc & Hg).
  destruct (a' !! d) as [[[[c2 g2] s2] b2]|]; [|discriminate].
  injection Hd' as -> ->.
  destruct (_RANK_THRESHOLD !! j) as [t|]; [|split; discriminate].
  split.
  - intros Hp. apply negb_true_iff, Z.ltb_ge in Hp.
    apply negb_true_iff, Z.ltb_ge. lia.
  - intros Hp. apply andb_true_iff in Hp as [Hp Hgold].
    apply negb_true_iff, Z.ltb_ge in Hp.
    rewrite Z.geb_leb in Hgold. apply Z.leb_le in Hgold.
    apply andb_true_iff. split.
    + apply negb_true_iff, Z.ltb_ge. lia.
    + rewrite Z.geb_leb. apply Z.leb_le. lia.
Qed.

End TierFacts.

(** X1: the rank is the number of ranked buckets that pass in a row from
    Easy on, the plus tier is the number of them that pass with gold in a
    row from Easy on, and neither exceeds six. *)
Theorem rank_finder_counts_leading_buckets
    (amounts : gmap string Rank.Counts) :
  Rank.rank_finder amounts
  = Ok (Z.of_nat (Rank.leading amounts 0 Rank.ranked_buckets),
        Z.of_nat (Tiers.leading_plus amounts 0 Rank.ranked_buckets))
  ∧ (Tiers.leading_plus amounts 0 Rank.ranked_buckets
     ≤ Rank.leading amounts 0 Rank.ranked_buckets ≤ 6)%nat.
Proof.
  split; [apply rank_finder_closed_form|]. split.
  - apply leading_plus_le_leading.
  - apply (leading_le_length amounts Rank.ranked_buckets 0).
Qed.

(** X2: the result depends only on the completion and gold counts of the
    six ranked buckets: silver and bronze counts and entries under any other
    key (such as Beginner) are never read. *)
Theorem rank_finder_reads_completions_and_gold
    (amounts amounts' : gmap string Rank.Counts) :
  (∀ diff, diff ∈ Rank.ranked_buckets →
           Tiers.read_counts amounts diff = Tiers.read_counts amounts' diff) →
  Rank.rank_finder amounts = Rank.rank_finder amounts'.
Proof.
  intros Hagree. rewrite !rank_finder_closed_form.
  destruct (leading_ext amounts amounts' Rank.ranked_buckets Hagree 0%nat)
    as [-> ->].
  reflexivity.
Qed.

Lemma rank_finder_reads_completions_and_gold_witness :
  Rank.rank_finder
    (<["Beginner"%string := (50, 50, 50, 50)]>
       (<["Easy"%string := (12, 4, 7, 9)]> Rank.scenario_A))
  = Rank.rank_finder Rank.scenario_A.
Proof.
  apply rank_finder_reads_completions_and_gold.
  intros diff Hd.
  repeat (apply elem_of_cons in Hd as [->|Hd]; [vm_compute; reflexivity|]).
  apply elem_of_nil in Hd. destruct Hd.
Defined.

(** X3: when every bucket keeps or gains completions and golds (new buckets
    may appear), neither the rank nor the plus tier decreases. *)
Theorem rank_finder_monotone_in_all_counts
    (amounts amounts' : gmap string Rank.Counts) :
  Tiers.counts_le amounts amounts' →
  ∃ rank rank_plus rank' rank_plus',
    Rank.rank_finder amounts = Ok (rank, rank_plus)
    ∧ Rank.rank_finder amounts' = Ok (rank', rank_plus')
    ∧ rank ≤ rank' ∧ rank_plus ≤ rank_plus'.
Proof.
  intros Hle. rewrite !rank_finder_closed_form.
  eexists _, _, _, _. split; [reflexivity|]. split; [reflexivity|].
  pose proof (counts_le_passes _ _ Hle) as Hp.
  split; apply inj_le.
  - apply leading_mono. intros j d. apply (Hp j d).
  - apply leading_plus_mono. intros j d. apply (Hp j d).
Qed.

Lemma rank_finder_monotone_in_all_counts_witness :
  ∃ rank rank_plus rank' rank_plus',
    Rank.rank_finder Rank.scenario_A = Ok (rank, rank_plus)
    ∧ Rank.rank_finder Rank.scenario_B = Ok (rank', rank_plus')
    ∧ rank ≤ rank' ∧ rank_plus ≤ rank_plus'.
Proof.
  apply rank_finder_monotone_in_all_counts.
  intros diff c g. unfold Tiers.read_counts, Rank.scenario_A, Rank.scenario_B.
  destruct (decide (diff = "Easy"%string)) as [->|Hne1].
  - rewrite !lookup_insert_eq. intros [= <- <-]. exists 15, 15.
    split; [reflexivity | lia].
  - rewrite !(lookup_insert_ne _ "Easy"%string) by congruence.
    destruct (decide (diff = "Medium"%string)) as [->|Hne2].
    + rewrite !lookup_insert_eq. intros [= <- <-]. exists 10, 5.
      split; [reflexivity | lia].
    + rewrite !lookup_insert_ne by congruence. rewrite lookup_empty.
      discriminate.
Defined.

(** * Further properties of the role reconciler *)

Section ReconcilerMore.

Import Reconciler.

Lemma foldl_append_missing_elem (adds : list Z) :
  ∀ (l : list Z) (x : Z),
    x ∈ foldl append_missing l adds ↔ x ∈ l ∨ x ∈ adds.
Proof.
  induction adds as [|a adds IH]; intros l x; simpl.
  - rewrite elem_of_nil. tauto.
  - rewrite IH, elem_of_append_missing, elem_of_cons. tauto.
Qed.

Lemma py_remove_subseteq (r x : Z) (l : list Z) :
  x ∈ py_remove r l → x ∈ l.
Proof.
  induction l as [|y l IH]; simpl; [auto|]. case_decide.
  - intros Hx. right. exact Hx.
  - rewrite !elem_of_cons. tauto.
Qed.

Lemma py_remove_keeps (r x : Z) (l : list Z) :
  x ∈ l → x ≠ r → x ∈ py_remove r l.
Proof.
  induction l as [|y l IH]; simpl; [auto|]. rewrite elem_of_cons.
  intros [->|Hx] Hne; case_decide as Hy.
  - congruence.
  - left.
  - exact Hx.
  - right. auto.
Qed.

Lemma foldl_remove_held_subseteq (rems : list Z) :
  ∀ (l : list Z) (x : Z), x ∈ foldl remove_held l rems → x ∈ l.
Proof.
  induction rems as [|r rems IH]; intros l x; simpl; [auto|].
  intros Hx. apply IH in Hx. unfold remove_held in Hx.
  case_decide; [eapply py_remove_subseteq|]; eauto.
Qed.

Lemma foldl_remove_held_keeps (rems : list Z) :
  ∀ (l : list Z) (x : Z),
    x ∈ l → x ∉ rems → x ∈ foldl remove_held l rems.
Proof.
  induction rems as [|r rems IH]; intros l x Hx Hnot; simpl; [auto|].
  apply not_elem_of_cons in Hnot as [Hne Hnot]. apply IH; [|exact Hnot].
  unfold remove_held. case_decide; [apply py_remove_keeps|]; auto.
Qed.

Variables (ranks ranks_plus : list Z).

Lemma new_roles_subseteq (held : list Z) (rank rank_plus x : Z) :
  x ∈ new_roles ranks ranks_plus held rank rank_plus →
  x ∈ held ∨ x ∈ added ranks ranks_plus held rank rank_plus.
Proof.
  unfold new_roles. intros Hx. apply foldl_remove_held_subseteq in Hx.
  apply foldl_append_missing_elem in Hx. exact Hx.
Qed.

Lemma new_roles_keeps (held : list Z) (rank rank_plus x : Z) :
  x ∈ held ∨ x ∈ added ranks ranks_plus held rank rank_plus →
  x ∉ removed ranks ranks_plus held rank rank_plus →
  x ∈ new_roles ranks ranks_plus held rank rank_plus.
Proof.
  unfold new_roles. intros Hx Hnot. apply foldl_remove_held_keeps; [|exact Hnot].
  apply foldl_append_missing_elem. exact Hx.
Qed.

Lemma added_subseteq_target (held : list Z) (rank rank_plus x : Z) :
  x ∈ added ranks ranks_plus held rank rank_plus →
  x ∈ target ranks ranks_plus rank rank_plus ∧ x ∉ held.
Proof. rewrite added_filter, list_elem_of_filter. tauto. Qed.

Lemma removed_subseteq_scanned (held : list Z) (rank rank_plus x : Z) :
  x ∈ removed ranks ranks_plus held rank rank_plus →
  x ∈ scanned ranks ranks_plus rank rank_plus ∧ x ∈ held.
Proof. rewrite removed_filter, list_elem_of_filter. tauto. Qed.

Lemma target_on_ladder (rank rank_plus x : Z) :
  x ∈ target ranks ranks_plus rank rank_plus →
  x ∈ rank_roles ranks ∨ x ∈ rank_plus_roles ranks_plus.
Proof.
  unfold target. rewrite elem_of_app.
  intros [H|H]; apply slice_to_subseteq in H; auto.
Qed.

Lemma scanned_on_ladder (rank rank_plus x : Z) :
  x ∈ scanned ranks ranks_plus rank rank_plus →
  x ∈ rank_roles ranks ∨ x ∈ rank_plus_roles ranks_plus.
Proof.
  unfold scanned. rewrite elem_of_app.
  intros [H|H]; apply slice_from_subseteq in H; auto.
Qed.

Ltac step_reconcile :=
  unfold reconcile, roles, when, suppress, edit, set_rank, dispatch, send,
    log, mbind, M_bind, mret, M_ret; simpl.

Ltac split_run f :=
  repeat match goal with
         | |- context [roles_differ ?a ?b] => destruct (roles_differ a b)
         | |- context [nonempty ?l] => destruct (nonempty l)
         | |- context [edit_raises f] => destruct (edit_raises f)
         | |- context [set_raises f] => destruct (set_raises f)
         | |- context [send_raises f] => destruct (send_raises f)
         | _ => progress simpl
         end.

(** Whatever the outcome of a run, the member is left with the roles held
    before or with [new_roles]. *)
Lemma reconcile_roles_cases (f : Faults) (user_id rank rank_plus : Z)
    (w : World) :
  member_roles (reconcile ranks ranks_plus f user_id rank rank_plus w).2
  = member_roles w
  ∨ member_roles (reconcile ranks ranks_plus f user_id rank rank_plus w).2
    = new_roles ranks ranks_plus (member_roles w) rank rank_plus.
Proof.
  step_reconcile. split_run f; auto.
Qed.

(** A run changes the table [users] by the one [UPDATE] or not at all. *)
Lemma reconcile_users_cases (f : Faults) (user_id rank rank_plus : Z)
    (w : World) :
  users (reconcile ranks ranks_plus f user_id rank rank_plus w).2 = users w
  ∨ users (reconcile ranks ranks_plus f user_id rank rank_plus w).2
    = alter (λ row, <["rank"%string := rank]> row) user_id (users w).
Proof.
  step_reconcile. split_run f; auto.
Qed.

Lemma reconcile_send_irrelevant (f f' : Faults) (user_id rank rank_plus : Z)
    (w : World) :
  edit_raises f = edit_raises f' → set_raises f = set_raises f' →
  reconcile ranks ranks_plus f user_id rank rank_plus w
  = reconcile ranks ranks_plus f' user_id rank rank_plus w.
Proof.
  intros He Hs. step_reconcile. rewrite He, Hs.
  destruct (send_raises f); split_run f'; reflexivity.
Qed.

Lemma reconcile_edit_raises (f : Faults) (user_id rank rank_plus : Z)
    (w : World) :
  roles_differ (new_roles ranks ranks_plus (member_roles w) rank rank_plus)
               (member_roles w) = true →
  edit_raises f = true →
  reconcile ranks ranks_plus f user_id rank rank_plus w
  = (Raise HTTPException,
     {| member_roles := member_roles w; users := users w;
        calls := calls w
                 ++ [user_edit user_id
                       (new_roles ranks ranks_plus (member_roles w)
                                  rank rank_plus)] |}).
Proof. intros Hd He. step_reconcile. rewrite Hd, He. reflexivity. Qed.

Lemma reconcile_set_raises (f : Faults) (user_id rank rank_plus : Z)
    (w : World) :
  roles_differ (new_roles ranks ranks_plus (member_roles w) rank rank_plus)
               (member_roles w) = true →
  edit_raises f = false → set_raises f = true →
  reconcile ranks ranks_plus f user_id rank rank_plus w
  = (Raise StorageError,
     {| member_roles :=
          new_roles ranks ranks_plus (member_roles w) rank rank_plus;
        users := users w;
        calls := calls w
                 ++ [user_edit user_id
                       (new_roles ranks ranks_plus (member_roles w)
                                  rank rank_plus);
                     database_set_rank user_id rank] |}).
Proof.
  intros Hd He Hs. step_reconcile. rewrite Hd, He. simpl. rewrite Hs. simpl.
  rewrite <- app_assoc. reflexivity.
Qed.

Lemma roles_differ_true (new held : list Z) :
  roles_differ new held = true ↔ ¬ (∀ x, x ∈ new ↔ x ∈ held).
Proof.
  unfold roles_differ. rewrite bool_decide_eq_true. split.
  - intros Hne Hsame. apply Hne. apply set_eq. intros x.
    rewrite !elem_of_list_to_set. apply Hsame.
  - intros Hne Heq. apply Hne. intros x.
    rewrite <- (elem_of_list_to_set (C := gset Z) x new), Heq.
    apply elem_of_list_to_set.
Qed.

Lemma nonempty_true {A} (l : list A) : nonempty l = true ↔ l ≠ [].
Proof. destruct l; simpl; split; congruence. Qed.

(** For a member whose roles form a set, the grant set changes exactly when
    some role is added or removed. *)
Lemma roles_differ_iff (held : list Z) (rank rank_plus : Z) :
  NoDup held →
  roles_differ (new_roles ranks ranks_plus held rank rank_plus) held = true
  ↔ added ranks ranks_plus held rank rank_plus ≠ []
    ∨ removed ranks ranks_plus held rank rank_plus ≠ [].
Proof.
  intros Hh. rewrite roles_differ_true. split.
  - intros Hne.
    destruct (added ranks ranks_plus held rank rank_plus) as [|a la] eqn:Ea;
      [|left; discriminate].
    destruct (removed ranks ranks_plus held rank rank_plus)
      as [|r lr] eqn:Er; [|right; discriminate].
    exfalso. apply Hne. unfold new_roles. rewrite Ea, Er. reflexivity.
  - intros [Ha|Hr] Hsame.
    + destruct (added ranks ranks_plus held rank rank_plus) as [|a la] eqn:Ea;
        [congruence|].
      assert (Hin : a ∈ added ranks ranks_plus held rank rank_plus)
        by (rewrite Ea; left).
      pose proof (added_subseteq_target _ _ _ _ Hin) as [_ Hnot].
      apply Hnot, Hsame, new_roles_keeps; [auto|].
      intros Hrem. apply removed_subseteq_scanned in Hrem. tauto.
    + destruct (removed ranks ranks_plus held rank rank_plus)
        as [|r lr] eqn:Er; [congruence|].
      assert (Hin : r ∈ removed ranks ranks_plus held rank rank_plus)
        by (rewrite Er; left).
      pose proof (removed_subseteq_scanned _ _ _ _ Hin) as [_ Hheld].
      apply Hsame in Hheld. apply elem_of_new_roles in Hheld; tauto.
Qed.

End ReconcilerMore.

Lemma elem_of_slice_to_tail (l : list Z) (n x : Z) :
  0 ≤ n →
  x ∈ Reconciler.slice_to (tail l) n
  ↔ ∃ i, (1 ≤ i ≤ Z.to_nat n)%nat ∧ l !! i = Some x.
Proof.
  intros Hn. unfold Reconciler.slice_to.
  destruct (n <? 0) eqn:E; [apply Z.ltb_lt in E; lia|].
  rewrite elem_of_take. split.
  - intros (j & Hj & Hlt). rewrite lookup_tail in Hj.
    exists (S j). split; [lia | exact Hj].
  - intros (i & Hi & Hx). destruct i as [|j]; [lia|].
    exists j. rewrite lookup_tail. split; [exact Hx | lia].
Qed.

Lemma auto_role_as_reconcile (ranks ranks_plus : list Z)
    (f : Reconciler.Faults) (user_id : Z)
    (amounts : gmap string Rank.Counts) :
  ∃ rank rank_plus,
    Rank.rank_finder amounts = Ok (rank, rank_plus)
    ∧ 0 ≤ rank ∧ 0 ≤ rank_plus
    ∧ Reconciler.auto_role ranks ranks_plus f user_id amounts
      = Reconciler.reconcile ranks ranks_plus f user_id rank rank_plus.
Proof.
  unfold Reconciler.auto_role. rewrite rank_finder_closed_form.
  eexists _, _. split; [reflexivity|]. split; [lia|]. split; [lia|].
  reflexivity.
Qed.

(** X4: a role that is on neither ladder is never granted and never taken
    away, whatever the outcome of the run. *)
Theorem auto_role_leaves_other_roles (ranks ranks_plus : list Z)
    (f : Reconciler.Faults) (user_id : Z)
    (amounts : gmap string Rank.Counts) (w : Reconciler.World) (x : Z) :
  x ∉ Reconciler.rank_roles ranks →
  x ∉ Reconciler.rank_plus_roles ranks_plus →
  x ∈ Reconciler.member_roles
        (Reconciler.auto_role ranks ranks_plus f user_id amounts w).2
  ↔ x ∈ Reconciler.member_roles w.
Proof.
  intros H1 H2.
  destruct (auto_role_as_reconcile ranks ranks_plus f user_id amounts)
    as (rank & rank_plus & _ & _ & _ & ->).
  destruct (reconcile_roles_cases ranks ranks_plus f user_id rank rank_plus w)
    as [-> | ->]; [reflexivity|].
  split.
  - intros Hx. apply new_roles_subseteq in Hx as [Hx|Hx]; [exact Hx|].
    apply added_subseteq_target in Hx as [Hx _].
    apply target_on_ladder in Hx. tauto.
  - intros Hx. apply new_roles_keeps; [auto|].
    intros Hr. apply removed_subseteq_scanned in Hr as [Hr _].
    apply scanned_on_ladder in Hr. tauto.
Qed.

Lemma auto_role_leaves_other_roles_witness :
  500 ∈ Reconciler.member_roles
          (Reconciler.auto_role Reconciler.ex_ranks Reconciler.ex_ranks_plus
             Reconciler.no_faults 7 Rank.easy_gold
             (Reconciler.ex_world [103; 500])).2
  ↔ 500 ∈ Reconciler.member_roles (Reconciler.ex_world [103; 500]).
Proof.
  apply auto_role_leaves_other_roles.
  - apply (bool_decide_unpack _). vm_compute. exact I.
  - apply (bool_decide_unpack _). vm_compute. exact I.
Defined.

(** X5: with ladders that list every role once, a run that returns leaves
    the member holding every role of ladder index 1 .. rank and every plus
    role of plus-ladder index 1 .. rank_plus. *)
Theorem auto_role_grants_target (ranks ranks_plus : list Z)
    (f : Reconciler.Faults) (user_id : Z)
    (amounts : gmap string Rank.Counts) (w w' : Reconciler.World)
    (rank rank_plus : Z) :
  NoDup (Reconciler.rank_roles ranks ++ Reconciler.rank_plus_roles ranks_plus) →
  Rank.rank_finder amounts = Ok (rank, rank_plus) →
  Reconciler.auto_role ranks ranks_plus f user_id amounts w = (Ok tt, w') →
  (∀ i x, (1 ≤ i ≤ Z.to_nat rank)%nat → ranks !! i = Some x →
          x ∈ Reconciler.member_roles w')
  ∧ (∀ i x, (1 ≤ i ≤ Z.to_nat rank_plus)%nat → ranks_plus !! i = Some x →
            x ∈ Reconciler.member_roles w').
Proof.
  intros Hnd Hrank Hrun.
  destruct (auto_role_as_reconcile ranks ranks_plus f user_id amounts)
    as (r & rp & Hr & H0 & H1 & Heq).
  rewrite Hrank in Hr. injection Hr as <- <-. rewrite Heq in Hrun.
  pose proof (reconcile_roles_after _ _ _ _ _ _ _ _ Hrun) as Hafter.
  assert (Htarget : ∀ x,
             x ∈ Reconciler.target ranks ranks_plus rank rank_plus →
             x ∈ Reconciler.member_roles w').
  { intros x Hx. apply Hafter. apply new_roles_keeps.
    - destruct (decide (x ∈ Reconciler.member_roles w)); [auto|]. right.
      rewrite added_filter, list_elem_of_filter. auto.
    - intros Hrem. apply removed_subseteq_scanned in Hrem as [Hs _].
      exact (target_scanned_disjoint _ _ _ _ _ Hnd H0 H1 Hx Hs). }
  split; intros i x Hi Hx; apply Htarget; unfold Reconciler.target;
    rewrite elem_of_app; [left | right];
    apply elem_of_slice_to_tail; eauto.
Qed.

Lemma auto_role_grants_target_witness :
  101 ∈ Reconciler.member_roles
          (Reconciler.auto_role Reconciler.ex_ranks Reconciler.ex_ranks_plus
             Reconciler.no_faults 7 Rank.easy_gold
             (Reconciler.ex_world [103])).2.
Proof.
  destruct (auto_role_grants_target Reconciler.ex_ranks
              Reconciler.ex_ranks_plus Reconciler.no_faults 7 Rank.easy_gold
              (Reconciler.ex_world [103])
              (Reconciler.auto_role Reconciler.ex_ranks
                 Reconciler.ex_ranks_plus Reconciler.no_faults 7
                 Rank.easy_gold (Reconciler.ex_world [103])).2 1 1)
    as [Hplain _].
  - apply (bool_decide_unpack _). vm_compute. exact I.
  - vm_compute. reflexivity.
  - vm_compute. reflexivity.
  - apply (Hplain 1%nat 101); [simpl; lia | reflexivity].
Defined.

(** X6: whether the direct message can be delivered has no influence on the
    run: two runs that differ only in the failure of [user.send] return the
    same result and leave the same world. *)
Theorem auto_role_ignores_send_failure (ranks ranks_plus : list Z)
    (f f' : Reconciler.Faults) (user_id : Z)
    (amounts : gmap string Rank.Counts) (w : Reconciler.World) :
  Reconciler.edit_raises f = Reconciler.edit_raises f' →
  Reconciler.set_raises f = Reconciler.set_raises f' →
  Reconciler.auto_role ranks ranks_plus f user_id amounts w
  = Reconciler.auto_role ranks ranks_plus f' user_id amounts w.
Proof.
  intros He Hs.
  destruct (auto_role_as_reconcile ranks ranks_plus f user_id amounts)
    as (rank & rank_plus & Hr & _ & _ & ->).
  unfold Reconciler.auto_role. rewrite Hr.
  apply reconcile_send_irrelevant; assumption.
Qed.

Lemma auto_role_ignores_send_failure_witness :
  Reconciler.auto_role Reconciler.ex_ranks Reconciler.ex_ranks_plus
    {| Reconciler.edit_raises := false; Reconciler.set_raises := false;
       Reconciler.send_raises := true |}
    7 Rank.easy_gold (Reconciler.ex_world [103])
  = Reconciler.auto_role Reconciler.ex_ranks Reconciler.ex_ranks_plus
      Reconciler.no_faults 7 Rank.easy_gold (Reconciler.ex_world [103]).
Proof.
  apply auto_role_ignores_send_failure; reflexivity.
Defined.

(** X7: when the grant set changes and [user.edit] raises, [auto_role]
    raises with it after that one call: the roles and the table [users] are
    as before, no rank is written, no event is dispatched and no message is
    sent. *)
Theorem auto_role_edit_failure (ranks ranks_plus : list Z)
    (f : Reconciler.Faults) (user_id : Z)
    (amounts : gmap string Rank.Counts) (w : Reconciler.World)
    (rank rank_plus : Z) :
  Rank.rank_finder amounts = Ok (rank, rank_plus) →
  Reconciler.roles_differ
    (Reconciler.new_roles ranks ranks_plus (Reconciler.member_roles w)
       rank rank_plus)
    (Reconciler.member_roles w) = true →
  Reconciler.edit_raises f = true →
  Reconciler.auto_role ranks ranks_plus f user_id amounts w
  = (Raise HTTPException,
     {| Reconciler.member_roles := Reconciler.member_roles w;
        Reconciler.users := Reconciler.users w;
        Reconciler.calls :=
          Reconciler.calls w
          ++ [Reconciler.user_edit user_id
                (Reconciler.new_roles ranks ranks_plus
                   (Reconciler.member_roles w) rank rank_plus)] |}).
Proof.
  intros Hrank Hd He. unfold Reconciler.auto_role. rewrite Hrank.
  apply reconcile_edit_raises; assumption.
Qed.

Lemma auto_role_edit_failure_witness :
  Reconciler.auto_role Reconciler.ex_ranks Reconciler.ex_ranks_plus
    {| Reconciler.edit_raises := true; Reconciler.set_raises := false;
       Reconciler.send_raises := false |}
    7 Rank.easy_gold (Reconciler.ex_world [103])
  = (Raise HTTPException,
     {| Reconciler.member_roles := [103];
        Reconciler.users := Reconciler.users (Reconciler.ex_world [103]);
        Reconciler.calls := [Reconciler.user_edit 7 [101; 201]] |}).
Proof.
  apply (auto_role_edit_failure Reconciler.ex_ranks Reconciler.ex_ranks_plus
           _ 7 Rank.easy_gold (Reconciler.ex_world [103]) 1 1).
  - vm_compute. reflexivity.
  - vm_compute. reflexivity.
  - reflexivity.
Defined.

(** X8: when the grant set changes, [user.edit] succeeds and the storage
    engine raises, [auto_role] raises the storage error with the new roles
    applied, the table [users] unchanged, no event dispatched and no message
    sent. *)
Theorem auto_role_set_failure (ranks ranks_plus : list Z)
    (f : Reconciler.Faults) (user_id : Z)
    (amounts : gmap string Rank.Counts) (w : Reconciler.World)
    (rank rank_plus : Z) :
  Rank.rank_finder amounts = Ok (rank, rank_plus) →
  Reconciler.roles_differ
    (Reconciler.new_roles ranks ranks_plus (Reconciler.member_roles w)
       rank rank_plus)
    (Reconciler.member_roles w) = true →
  Reconciler.edit_raises f = false →
  Reconciler.set_raises f = true →
  Reconciler.auto_role ranks ranks_plus f user_id amounts w
  = (Raise StorageError,
     {| Reconciler.member_roles :=
          Reconciler.new_roles ranks ranks_plus (Reconciler.member_roles w)
            rank rank_plus;
        Reconciler.users := Reconciler.users w;
        Reconciler.calls :=
          Reconciler.calls w
          ++ [Reconciler.user_edit user_id
                (Reconciler.new_roles ranks ranks_plus
                   (Reconciler.member_roles w) rank rank_plus);
              Reconciler.database_set_rank user_id rank] |}).
Proof.
  intros Hrank Hd He Hs. unfold Reconciler.auto_role. rewrite Hrank.
  apply reconcile_set_raises; assumption.
Qed.

Lemma auto_role_set_failure_witness :
  Reconciler.auto_role Reconciler.ex_ranks Reconciler.ex_ranks_plus
    {| Reconciler.edit_raises := false; Reconciler.set_raises := true;
       Reconciler.send_raises := false |}
    7 Rank.easy_gold (Reconciler.ex_world [103])
  = (Raise StorageError,
     {| Reconciler.member_roles := [101; 201];
        Reconciler.users := Reconciler.users (Reconciler.ex_world [103]);
        Reconciler.calls := [Reconciler.user_edit 7 [101; 201];
                             Reconciler.database_set_rank 7 1] |}).
Proof.
  apply (auto_role_set_failure Reconciler.ex_ranks Reconciler.ex_ranks_plus
           _ 7 Rank.easy_gold (Reconciler.ex_world [103]) 1 1).
  - vm_compute. reflexivity.
  - vm_compute. reflexivity.
  - reflexivity.
  - reflexivity.
Defined.

(** X9: for a member whose held roles contain no duplicate, the test
    [set(new_roles) != set(user.roles)] succeeds exactly when [added] or
    [removed] is not empty, so the role edit is attempted exactly when the
    direct message is. *)
Theorem edit_exactly_when_notified (ranks ranks_plus : list Z)
    (held : list Z) (rank rank_plus : Z) :
  NoDup held →
  Reconciler.roles_differ
    (Reconciler.new_roles ranks ranks_plus held rank rank_plus) held
  = Reconciler.nonempty (Reconciler.added ranks ranks_plus held rank rank_plus)
    || Reconciler.nonempty
         (Reconciler.removed ranks ranks_plus held rank rank_plus).
Proof.
  intros Hh. apply eq_true_iff_eq.
  rewrite (roles_differ_iff ranks ranks_plus held rank rank_plus Hh).
  rewrite orb_true_iff, !nonempty_true. reflexivity.
Qed.

Lemma edit_exactly_when_notified_witness :
  Reconciler.roles_differ
    (Reconciler.new_roles Reconciler.ex_ranks Reconciler.ex_ranks_plus
       [101; 103] 1 0) [101; 103]
  = Reconciler.nonempty
      (Reconciler.added Reconciler.ex_ranks Reconciler.ex_ranks_plus
         [101; 103] 1 0)
    || Reconciler.nonempty
         (Reconciler.removed Reconciler.ex_ranks Reconciler.ex_ranks_plus
            [101; 103] 1 0).
Proof.
  apply edit_exactly_when_notified.
  apply (bool_decide_unpack _). vm_compute. exact I.
Defined.

(** X10: whatever the outcome, [auto_role] creates no row in [users] and
    deletes none, leaves the rows of the other users as they are, and in
    the row of the player changes no column but [rank]. *)
Theorem auto_role_users_table (ranks ranks_plus : list Z)
    (f : Reconciler.Faults) (user_id : Z)
    (amounts : gmap string Rank.Counts) (w : Reconciler.World) :
  let w' := (Reconciler.auto_role ranks ranks_plus f user_id amounts w).2 in
  dom (Reconciler.users w') = dom (Reconciler.users w)
  ∧ (∀ other, other ≠ user_id →
       Reconciler.users w' !! other = Reconciler.users w !! other)
  ∧ (∀ column, column ≠ "rank"%string →
       Reconciler.stored w' user_id column
       = Reconciler.stored w user_id column).
Proof.
  intros w'. subst w'.
  destruct (auto_role_as_reconcile ranks ranks_plus f user_id amounts)
    as (rank & rank_plus & _ & _ & _ & ->).
  unfold Reconciler.stored.
  destruct (reconcile_users_cases ranks ranks_plus f user_id rank rank_plus w)
    as [-> | ->]; [auto|].
  split; [apply dom_alter_L|]. split.
  - intros other Hne. apply lookup_alter_ne. congruence.
  - intros column Hc. rewrite lookup_alter. case_decide; [|congruence].
    destruct (Reconciler.users w !! user_id) as [row|]; simpl; [|reflexivity].
    apply lookup_insert_ne. congruence.
Qed.

(** * Properties of [update_affected_users] *)

Section AffectedFacts.

Import Reconciler Affected.

Variables (ranks ranks_plus : list Z).
Variable faults : Z → Faults.
Variable completions : Z → gmap string Rank.Counts.

Local Abbreviation visit := (visit ranks ranks_plus faults completions).
Local Abbreviation for_users := (for_users ranks ranks_plus faults completions).

Lemma visit_absent (x : Z) (g : Guild) :
  members g !! x = None → visit x g = (Ok tt, g).
Proof. intros Hx. unfold Affected.visit. rewrite Hx. reflexivity. Qed.

Lemma visit_member (x : Z) (held : list Z) (g : Guild) :
  members g !! x = Some held →
  visit x g
  = let rw := auto_role ranks ranks_plus (faults x) x (completions x)
                {| member_roles := held; users := guild_users g;
                   calls := guild_calls g |} in
    (rw.1, {| members := <[x := member_roles rw.2]> (members g);
              guild_users := users rw.2; guild_calls := calls rw.2 |}).
Proof.
  intros Hx. unfold Affected.visit, auto_role_member. rewrite Hx.
  destruct (auto_role _ _ _ _ _ _) as [r w]. reflexivity.
Qed.

Lemma visit_frame (x y : Z) (g : Guild) :
  y ≠ x → members (visit x g).2 !! y = members g !! y.
Proof.
  intros Hne. destruct (members g !! x) as [held|] eqn:Hx.
  - rewrite (visit_member _ _ _ Hx). simpl.
    apply lookup_insert_ne. congruence.
  - rewrite (visit_absent _ _ Hx). reflexivity.
Qed.

Lemma visit_dom (x : Z) (g : Guild) :
  dom (members (visit x g).2) = dom (members g).
Proof.
  destruct (members g !! x) as [held|] eqn:Hx.
  - rewrite (visit_member _ _ _ Hx). simpl. rewrite dom_insert_L.
    apply elem_of_dom_2 in Hx. set_solver.
  - rewrite (visit_absent _ _ Hx). reflexivity.
Qed.

Lemma for_users_cons (x : Z) (rest : list Z) (g : Guild) :
  for_users (x :: rest) g
  = match visit x g with
    | (Ok _, g1) => for_users rest g1
    | (Raise e, g1) => (Raise e, g1)
    end.
Proof.
  simpl. unfold mbind, M_bind.
  destruct (visit x g) as [[[]|e] g1]; reflexivity.
Qed.

Lemma for_users_frame (xs : list Z) :
  ∀ (g : Guild) (y : Z),
    y ∉ xs →
    members (for_users xs g).2 !! y = members g !! y.
Proof.
  induction xs as [|x rest IH]; intros g y Hy; [reflexivity|].
  apply not_elem_of_cons in Hy as [Hne Hy].
  rewrite for_users_cons.
  pose proof (visit_frame x y g Hne) as Hv.
  destruct (visit x g) as [[[]|e] g1]; simpl in *.
  - rewrite IH by exact Hy. exact Hv.
  - exact Hv.
Qed.

Lemma for_users_dom (xs : list Z) :
  ∀ g : Guild, dom (members (for_users xs g).2) = dom (members g).
Proof.
  induction xs as [|x rest IH]; intros g; [reflexivity|].
  rewrite for_users_cons. pose proof (visit_dom x g) as Hv.
  destruct (visit x g) as [[[]|e] g1]; simpl in *.
  - rewrite IH. exact Hv.
  - exact Hv.
Qed.

Lemma for_users_absent (xs : list Z) (g : Guild) :
  (∀ x, x ∈ xs → members g !! x = None) → for_users xs g = (Ok tt, g).
Proof.
  induction xs as [|x rest IH]; intros Habs; [reflexivity|].
  rewrite for_users_cons, visit_absent by (apply Habs; left).
  apply IH. intros y Hy. apply Habs. right. exact Hy.
Qed.

Lemma for_users_abort (l1 : list Z) :
  ∀ (g g1 g2 : Guild) (x : Z) (l2 : list Z) (e : Exn),
    for_users l1 g = (Ok tt, g1) →
    visit x g1 = (Raise e, g2) →
    for_users (l1 ++ x :: l2) g = (Raise e, g2).
Proof.
  induction l1 as [|y l1 IH]; intros g g1 g2 x l2 e Hpre Hx.
  - injection Hpre as <-. simpl app. rewrite for_users_cons, Hx. reflexivity.
  - simpl app. rewrite for_users_cons in *.
    destruct (visit y g) as [[[]|e'] g']; [|discriminate].
    eapply IH; eauto.
Qed.

Ltac step_reconcile' :=
  unfold reconcile, roles, when, suppress, edit, set_rank, dispatch, send,
    log, mbind, M_bind, mret, M_ret; simpl.

Lemma reconcile_returns (f : Faults) (user_id rank rank_plus : Z) (w : World) :
  edit_raises f = false → set_raises f = false →
  (reconcile ranks ranks_plus f user_id rank rank_plus w).1 = Ok tt.
Proof.
  intros He Hs. step_reconcile'. rewrite He.
  destruct (roles_differ _ _); simpl; rewrite ?Hs; simpl;
    destruct (nonempty (added _ _ _ _ _)),
             (nonempty (removed _ _ _ _ _)), (send_raises f); reflexivity.
Qed.

(** When neither [user.edit] nor [database.set] raises for a listed user,
    every listed member ends with the roles of its [new_roles]. *)
Lemma for_users_reconciles (xs : list Z) :
  ∀ g : Guild,
    NoDup xs →
    (∀ x, x ∈ xs →
          edit_raises (faults x) = false ∧ set_raises (faults x) = false) →
    (for_users xs g).1 = Ok tt
    ∧ ∀ x held rank rank_plus,
        x ∈ xs → members g !! x = Some held →
        Rank.rank_finder (completions x) = Ok (rank, rank_plus) →
        ∃ held',
          members (for_users xs g).2 !! x = Some held'
          ∧ ∀ r, r ∈ held'
                 ↔ r ∈ new_roles ranks ranks_plus held rank rank_plus.
Proof.
  induction xs as [|x rest IH]; intros g Hnd Hok.
  - split; [reflexivity|]. intros x held rank rank_plus Hx.
    apply elem_of_nil in Hx. destruct Hx.
  - apply NoDup_cons in Hnd as [Hx Hnd].
    assert (Hok' : ∀ y, y ∈ rest →
              edit_raises (faults y) = false ∧ set_raises (faults y) = false)
      by (intros y Hy; apply Hok; right; exact Hy).
    destruct (Hok x) as [He Hs]; [left|].
    rewrite for_users_cons.
    destruct (members g !! x) as [hx|] eqn:Hgx.
    + pose proof (visit_member _ _ _ Hgx) as Hv. simpl in Hv.
      destruct (auto_role_as_reconcile ranks ranks_plus (faults x) x
                  (completions x)) as (rk & rp & Hrk & _ & _ & Heq).
      rewrite Heq in Hv.
      pose proof (reconcile_returns (faults x) x rk rp
                    {| member_roles := hx; users := guild_users g;
                       calls := guild_calls g |} He Hs) as Hret.
      destruct (reconcile ranks ranks_plus (faults x) x rk rp _)
        as [r w1] eqn:Hrun.
      simpl in Hret, Hv. subst r. rewrite Hv.
      destruct (IH {| members := <[x := member_roles w1]> (members g);
                      guild_users := users w1; guild_calls := calls w1 |}
                   Hnd Hok') as [Hres Hall].
      split; [exact Hres|].
      intros y held rank rank_plus Hy Hgy Hrank.
      apply elem_of_cons in Hy as [->|Hy].
      * rewrite for_users_frame by exact Hx. simpl.
        rewrite lookup_insert_eq. eexists. split; [reflexivity|].
        rewrite Hgx in Hgy. injection Hgy as <-.
        rewrite Hrk in Hrank. injection Hrank as <- <-.
        exact (reconcile_roles_after _ _ _ _ _ _ _ _ Hrun).
      * apply (Hall y held rank rank_plus Hy); [|exact Hrank].
        simpl. rewrite lookup_insert_ne; [exact Hgy|].
        intros ->. contradiction.
    + rewrite (visit_absent _ _ Hgx).
      destruct (IH g Hnd Hok') as [Hres Hall].
      split; [exact Hres|].
      intros y held rank rank_plus Hy Hgy Hrank.
      apply elem_of_cons in Hy as [->|Hy]; [congruence|].
      exact (Hall y held rank rank_plus Hy Hgy Hrank).
Qed.

Lemma update_as_loop (xs : list Z) (g : Guild) :
  update_affected_users ranks ranks_plus faults completions xs g
  = for_users xs g.
Proof. destruct xs; reflexivity. Qed.

End AffectedFacts.

(** X11: [update_affected_users] neither adds nor drops a guild member, and
    a member whose id is not among the listed users keeps exactly the roles
    it had, whatever the outcome. *)
Theorem update_affected_users_scope (ranks ranks_plus : list Z)
    (faults : Z → Reconciler.Faults)
    (completions : Z → gmap string Rank.Counts)
    (users : list Z) (g : Affected.Guild) :
  let g' := (Affected.update_affected_users ranks ranks_plus faults
               completions users g).2 in
  dom (Affected.members g') = dom (Affected.members g)
  ∧ ∀ y, y ∉ users → Affected.members g' !! y = Affected.members g !! y.
Proof.
  intros g'. subst g'. rewrite update_as_loop. split.
  - apply for_users_dom.
  - intros y Hy. apply for_users_frame. exact Hy.
Qed.

(** X12: listed users who are not members of the guild are skipped: when
    none of the listed users is a member ([get_member] returns [None] for
    each, or the list is empty), the call returns without any effect. *)
Theorem update_affected_users_skips_absent (ranks ranks_plus : list Z)
    (faults : Z → Reconciler.Faults)
    (completions : Z → gmap string Rank.Counts)
    (users : list Z) (g : Affected.Guild) :
  (∀ x, x ∈ users → Affected.members g !! x = None) →
  Affected.update_affected_users ranks ranks_plus faults completions users g
  = (Ok tt, g).
Proof.
  intros Habs. rewrite update_as_loop. apply for_users_absent. exact Habs.
Qed.

Lemma update_affected_users_skips_absent_witness :
  Affected.update_affected_users Reconciler.ex_ranks Reconciler.ex_ranks_plus
    (λ _, Reconciler.no_faults) Affected.ex_completions [9]
    Affected.ex_guild
  = (Ok tt, Affected.ex_guild).
Proof.
  apply update_affected_users_skips_absent.
  intros x Hx. apply list_elem_of_singleton in Hx. subst x.
  vm_compute. reflexivity.
Defined.

(** X13: when the listed user ids are distinct and neither [user.edit] nor
    [database.set] raises for any of them, [update_affected_users] returns
    and every listed member holds, as a set, the [new_roles] computed from
    the roles it held before and from its own completions. *)
Theorem update_affected_users_reconciles_all (ranks ranks_plus : list Z)
    (faults : Z → Reconciler.Faults)
    (completions : Z → gmap string Rank.Counts)
    (users : list Z) (g : Affected.Guild) :
  NoDup users →
  (∀ x, x ∈ users →
        Reconciler.edit_raises (faults x) = false
        ∧ Reconciler.set_raises (faults x) = false) →
  ∃ g',
    Affected.update_affected_users ranks ranks_plus faults completions
      users g = (Ok tt, g')
    ∧ ∀ x held rank rank_plus,
        x ∈ users → Affected.members g !! x = Some held →
        Rank.rank_finder (completions x) = Ok (rank, rank_plus) →
        ∃ held',
          Affected.members g' !! x = Some held'
          ∧ ∀ r, r ∈ held'
                 ↔ r ∈ Reconciler.new_roles ranks ranks_plus held
                         rank rank_plus.
Proof.
  intros Hnd Hok. rewrite update_as_loop.
  destruct (for_users_reconciles ranks ranks_plus faults completions users g
              Hnd Hok) as [Hres Hall].
  destruct (Affected.for_users _ _ _ _ _ _) as [r g'] eqn:Hrun.
  simpl in Hres. subst r. exists g'. split; [reflexivity|]. exact Hall.
Qed.

Lemma update_affected_users_reconciles_all_witness :
  ∃ g',
    Affected.update_affected_users Reconciler.ex_ranks
      Reconciler.ex_ranks_plus (λ _, Reconciler.no_faults)
      Affected.ex_completions [7; 9; 8] Affected.ex_guild = (Ok tt, g').
Proof.
  destruct (update_affected_users_reconciles_all Reconciler.ex_ranks
              Reconciler.ex_ranks_plus (λ _, Reconciler.no_faults)
              Affected.ex_completions [7; 9; 8] Affected.ex_guild)
    as (g' & Hrun & _).
  - apply (bool_decide_unpack _). vm_compute. exact I.
  - intros x _. split; reflexivity.
  - exists g'. exact Hrun.
Defined.

(** X14: the loop does not isolate failures: when the users before [x] are
    processed without exception and the reconciliation of [x] raises,
    [update_affected_users] raises that exception at once, and the users
    listed after [x] are not visited. *)
Theorem update_affected_users_aborts (ranks ranks_plus : list Z)
    (faults : Z → Reconciler.Faults)
    (completions : Z → gmap string Rank.Counts)
    (before after : list Z) (x : Z) (e : Exn) (g g1 g2 : Affected.Guild) :
  Affected.update_affected_users ranks ranks_plus faults completions before g
  = (Ok tt, g1) →
  Affected.visit ranks ranks_plus faults completions x g1 = (Raise e, g2) →
  Affected.update_affected_users ranks ranks_plus faults completions
    (before ++ x :: after) g
  = (Raise e, g2).
Proof.
  rewrite !update_as_loop. apply for_users_abort.
Qed.

Lemma update_affected_users_aborts_witness :
  ∃ g2,
    Affected.update_affected_users Reconciler.ex_ranks
      Reconciler.ex_ranks_plus
      (λ _, {| Reconciler.edit_raises := true;
               Reconciler.set_raises := false;
               Reconciler.send_raises := false |})
      Affected.ex_completions ([9] ++ 7 :: [8]) Affected.ex_guild
    = (Raise HTTPException, g2)
    ∧ Affected.members g2 !! 8 = Some [500].
Proof.
  eexists. split.
  - apply (update_affected_users_aborts Reconciler.ex_ranks
             Reconciler.ex_ranks_plus _ Affected.ex_completions [9] [8] 7
             HTTPException Affected.ex_guild Affected.ex_guild).
    + vm_compute. reflexivity.
    + vm_compute. reflexivity.
  - vm_compute. reflexivity.
Defined.

(** * Properties of the fuzzy matching *)

Section FuzzFacts.

Import Fuzz.

Lemma max_from_spec (l : list (string * Z)) :
  ∀ best,
    (∀ y, y ∈ best :: l → y.2 ≤ (max_from best l).2)
    ∧ ((max_from best l = best)
       ∨ ∃ l1 l2, l = l1 ++ max_from best l :: l2
                  ∧ ∀ y, y ∈ best :: l1 → y.2 < (max_from best l).2).
Proof.
  induction l as [|x rest IH]; intros best; simpl.
  - split; [|auto]. intros y Hy. apply list_elem_of_singleton in Hy.
    subst y. lia.
  - destruct (best.2 <? x.2) eqn:E;
      [apply Z.ltb_lt in E | apply Z.ltb_ge in E].
    + destruct (IH x) as [Hmax Hfirst].
      assert (Hx : x.2 ≤ (max_from x rest).2) by (apply Hmax; left).
      split.
      * intros y Hy. apply elem_of_cons in Hy as [->|Hy]; [lia|].
        apply Hmax. exact Hy.
      * right. destruct Hfirst as [Heq | (l1 & l2 & Hsplit & Hlt)].
        -- exists [], rest. rewrite Heq. split; [reflexivity|].
           intros y Hy. apply list_elem_of_singleton in Hy. subst y. exact E.
        -- exists (x :: l1), l2. split; [simpl; congruence|].
           intros y Hy. apply elem_of_cons in Hy as [->|Hy].
           ++ assert (x.2 < (max_from x rest).2) by (apply Hlt; left). lia.
           ++ apply Hlt. exact Hy.
    + destruct (IH best) as [Hmax Hfirst].
      assert (Hb : best.2 ≤ (max_from best rest).2) by (apply Hmax; left).
      split.
      * intros y Hy. apply elem_of_cons in Hy as [->|Hy]; [exact Hb|].
        apply elem_of_cons in Hy as [->|Hy]; [lia|].
        apply Hmax. right. exact Hy.
      * destruct Hfirst as [Heq | (l1 & l2 & Hsplit & Hlt)]; [auto|].
        right. exists (x :: l1), l2. split; [simpl; congruence|].
        intros y Hy. apply elem_of_cons in Hy as [->|Hy]; [apply Hlt; left|].
        apply elem_of_cons in Hy as [->|Hy].
        -- assert (best.2 < (max_from best rest).2) by (apply Hlt; left). lia.
        -- apply Hlt. right. exact Hy.
Qed.

Lemma py_max_spec (l : list (string * Z)) (m : string * Z) :
  py_max l = Some m →
  ∃ l1 l2, l = l1 ++ m :: l2
           ∧ (∀ y, y ∈ l1 → y.2 < m.2) ∧ (∀ y, y ∈ l → y.2 ≤ m.2).
Proof.
  destruct l as [|x rest]; simpl; [discriminate|]. intros [= <-].
  destruct (max_from_spec rest x) as [Hmax Hfirst].
  destruct Hfirst as [Heq | (l1 & l2 & Hsplit & Hlt)].
  - exists [], rest. rewrite Heq. split; [reflexivity|]. split.
    + intros y Hy. apply elem_of_nil in Hy. destruct Hy.
    + rewrite Heq in Hmax. exact Hmax.
  - exists (x :: l1), l2. split; [simpl; congruence|]. split; assumption.
Qed.

Lemma max_from_as_py_max (l : list (string * Z)) :
  ∀ best,
    max_from best l
    = match py_max l with
      | None => best
      | Some m => if best.2 <? m.2 then m else best
      end.
Proof.
  induction l as [|x rest IH]; intros best; [reflexivity|].
  simpl. destruct (best.2 <? x.2) eqn:E;
    [apply Z.ltb_lt in E | apply Z.ltb_ge in E].
  - destruct (max_from_spec rest x) as [Hmax _].
    assert (x.2 ≤ (max_from x rest).2) by (apply Hmax; left).
    destruct (best.2 <? (max_from x rest).2) eqn:E2; [reflexivity|].
    apply Z.ltb_ge in E2. lia.
  - rewrite (IH best), (IH x). destruct (py_max rest) as [m|].
    + destruct (best.2 <? m.2) eqn:E1;
        [apply Z.ltb_lt in E1 | apply Z.ltb_ge in E1].
      * destruct (x.2 <? m.2) eqn:E2; [|apply Z.ltb_ge in E2; lia].
        rewrite (proj2 (Z.ltb_lt _ _) E1). reflexivity.
      * destruct (x.2 <? m.2) eqn:E2.
        -- rewrite (proj2 (Z.ltb_ge _ _) E1). reflexivity.
        -- rewrite (proj2 (Z.ltb_ge _ _) E). reflexivity.
    + rewrite (proj2 (Z.ltb_ge _ _) E). reflexivity.
Qed.

Lemma head_insert_desc (x : string * Z) (l : list (string * Z)) :
  head (insert_desc x l)
  = match head l with
    | None => Some x
    | Some h => if x.2 <? h.2 then Some h else Some x
    end.
Proof. destruct l as [|y rest]; simpl; [|destruct (_ <? _)]; reflexivity. Qed.

Lemma head_sorted_desc (l : list (string * Z)) :
  head (sorted_desc l) = py_max l.
Proof.
  induction l as [|x rest IH]; [reflexivity|].
  unfold sorted_desc in *. simpl foldr. rewrite head_insert_desc, IH.
  simpl py_max at 2. rewrite max_from_as_py_max.
  destruct (py_max rest) as [m|]; [|reflexivity].
  destruct (x.2 <? m.2); reflexivity.
Qed.

Lemma insert_desc_perm (x : string * Z) (l : list (string * Z)) :
  insert_desc x l ≡ₚ x :: l.
Proof.
  induction l as [|y rest IH]; simpl; [reflexivity|].
  destruct (x.2 <? y.2); [|reflexivity].
  rewrite IH. apply Permutation_swap.
Qed.

Lemma sorted_desc_perm (l : list (string * Z)) : sorted_desc l ≡ₚ l.
Proof.
  induction l as [|x rest IH]; [reflexivity|].
  unfold sorted_desc in *. simpl. rewrite insert_desc_perm, IH. reflexivity.
Qed.

Lemma insert_desc_sorted (x : string * Z) (l : list (string * Z)) :
  StronglySorted by_key l → StronglySorted by_key (insert_desc x l).
Proof.
  induction 1 as [|y rest Hs IH Hall]; simpl.
  - repeat constructor.
  - destruct (x.2 <? y.2) eqn:E;
      [apply Z.ltb_lt in E | apply Z.ltb_ge in E].
    + constructor; [exact IH|].
      rewrite insert_desc_perm. constructor; [unfold by_key; lia | exact Hall].
    + constructor; [constructor; assumption|].
      constructor; [exact E|].
      eapply Forall_impl; [exact Hall|]. unfold by_key. intros z Hz. lia.
Qed.

Lemma sorted_desc_sorted (l : list (string * Z)) :
  StronglySorted by_key (sorted_desc l).
Proof.
  induction l as [|x rest IH]; [constructor|].
  apply insert_desc_sorted. exact IH.
Qed.

Variable partial_ratio : string → string → Z.

Lemma scored_fst (s : string) (iterable : list string) :
  fst <$> scored partial_ratio s iterable = iterable.
Proof.
  unfold scored. rewrite <- list_fmap_compose.
  rewrite <- (list_fmap_id iterable) at 2. apply list_fmap_ext.
  intros i x _. reflexivity.
Qed.

Lemma scored_key (s : string) (iterable : list string) (p : string * Z) :
  p ∈ scored partial_ratio s iterable → p.2 = partial_ratio s p.1.
Proof.
  unfold scored. intros Hp. apply list_elem_of_fmap in Hp as (v & -> & _).
  reflexivity.
Qed.

Lemma sorted_fst (s : string) (l : list (string * Z)) :
  (∀ p, p ∈ l → p.2 = partial_ratio s p.1) →
  StronglySorted by_key l →
  StronglySorted (λ a b, partial_ratio s b ≤ partial_ratio s a) (fst <$> l).
Proof.
  intros Hkey Hs. induction Hs as [|y rest Hs IH Hall]; [constructor|].
  rewrite fmap_cons. constructor.
  - apply IH. intros p Hp. apply Hkey. right. exact Hp.
  - apply Forall_fmap. apply Forall_forall. intros z Hz. simpl.
    rewrite Forall_forall in Hall. specialize (Hall z Hz). unfold by_key in Hall.
    rewrite <- (Hkey y) by left. rewrite <- (Hkey z) by (right; exact Hz).
    exact Hall.
Qed.

End FuzzFacts.

Lemma fuzz_none_iff (partial_ratio : string → string → Z)
    (s : string) (iterable : list string) :
  Fuzz.fuzz_ partial_ratio s iterable = None ↔ iterable = [].
Proof.
  unfold Fuzz.fuzz_, Fuzz.scored. destruct iterable; simpl; split; congruence.
Qed.

Lemma fuzz_some_spec (partial_ratio : string → string → Z)
    (s : string) (iterable : list string) (r : string) :
  Fuzz.fuzz_ partial_ratio s iterable = Some r →
  ∃ before after,
    iterable = before ++ r :: after
    ∧ (∀ y, y ∈ before → partial_ratio s y < partial_ratio s r)
    ∧ (∀ y, y ∈ iterable → partial_ratio s y ≤ partial_ratio s r).
Proof.
  intros Hr. unfold Fuzz.fuzz_ in Hr.
  destruct (Fuzz.py_max _) as [m|] eqn:Hm; [|discriminate].
  injection Hr as <-.
  destruct (py_max_spec _ _ Hm) as (l1 & l2 & Hsplit & Hlt & Hle).
  pose proof (scored_fst partial_ratio s iterable) as Hfst.
  rewrite Hsplit, fmap_app, fmap_cons in Hfst.
  assert (Hkey : ∀ p, p ∈ l1 ++ m :: l2 → p.2 = partial_ratio s p.1)
    by (rewrite <- Hsplit; apply scored_key).
  exists (fst <$> l1), (fst <$> l2). split; [symmetry; exact Hfst|]. split.
  - intros y Hy. apply list_elem_of_fmap in Hy as (p & -> & Hp).
    rewrite <- (Hkey p), <- (Hkey m);
      [apply Hlt; exact Hp | set_solver | set_solver].
  - intros y Hy. rewrite <- Hfst in Hy. rewrite <- fmap_cons, <- fmap_app in Hy.
    apply list_elem_of_fmap in Hy as (p & -> & Hp).
    rewrite <- (Hkey p) by exact Hp. rewrite <- (Hkey m) by set_solver.
    apply Hle. rewrite Hsplit. exact Hp.
Qed.

(** X15: [fuzz_] returns the first candidate of greatest score: all
    candidates before it score strictly less and none scores more; on an
    empty candidate list, and only there, [max] raises. *)
Theorem fuzz_returns_first_best (partial_ratio : string → string → Z)
    (s : string) (iterable : list string) :
  (Fuzz.fuzz_ partial_ratio s iterable = None ↔ iterable = [])
  ∧ ∀ r, Fuzz.fuzz_ partial_ratio s iterable = Some r →
         ∃ before after,
           iterable = before ++ r :: after
           ∧ (∀ y, y ∈ before → partial_ratio s y < partial_ratio s r)
           ∧ (∀ y, y ∈ iterable → partial_ratio s y ≤ partial_ratio s r).
Proof.
  split; [apply fuzz_none_iff | apply fuzz_some_spec].
Qed.

(** X16: [fuzz_multiple] returns min(10, n) of the n candidates, by
    decreasing score; together with the candidates it leaves out they are
    the candidate list reordered, and no candidate left out scores more than
    one that is returned. *)
Theorem fuzz_multiple_top_ten (partial_ratio : string → string → Z)
    (s : string) (iterable : list string) :
  length (Fuzz.fuzz_multiple partial_ratio s iterable)
  = Nat.min 10 (length iterable)
  ∧ StronglySorted (λ a b, partial_ratio s b ≤ partial_ratio s a)
      (Fuzz.fuzz_multiple partial_ratio s iterable)
  ∧ ∃ left_out,
      Fuzz.fuzz_multiple partial_ratio s iterable ++ left_out ≡ₚ iterable
      ∧ ∀ x y, x ∈ Fuzz.fuzz_multiple partial_ratio s iterable →
               y ∈ left_out → partial_ratio s y ≤ partial_ratio s x.
Proof.
  unfold Fuzz.fuzz_multiple.
  set (sorted := Fuzz.sorted_desc (Fuzz.scored partial_ratio s iterable)).
  assert (Hperm : sorted ≡ₚ Fuzz.scored partial_ratio s iterable)
    by apply sorted_desc_perm.
  assert (Hkey : ∀ p, p ∈ sorted → p.2 = partial_ratio s p.1).
  { intros p Hp. apply (scored_key partial_ratio s iterable).
    rewrite <- Hperm. exact Hp. }
  assert (Hs : StronglySorted Fuzz.by_key sorted) by apply sorted_desc_sorted.
  rewrite <- (take_drop 10 sorted) in Hs.
  split; [|split].
  - rewrite length_fmap, length_take. f_equal.
    rewrite <- (length_fmap fst), <- (scored_fst partial_ratio s iterable).
    rewrite !length_fmap. apply Permutation_length. exact Hperm.
  - apply sorted_fst.
    + intros p Hp. apply Hkey. apply elem_of_take in Hp as (i & Hi & _).
      apply list_elem_of_lookup. eauto.
    + apply StronglySorted_app_1_l in Hs. exact Hs.
  - exists (fst <$> drop 10 sorted). split.
    + rewrite <- fmap_app, take_drop, Hperm.
      rewrite scored_fst. reflexivity.
    + intros x y Hx Hy.
      apply list_elem_of_fmap in Hx as (p & -> & Hp).
      apply list_elem_of_fmap in Hy as (q & -> & Hq).
      pose proof (StronglySorted_app_1_elem_of _ _ _ _ _ Hs Hp Hq) as Hpq.
      unfold Fuzz.by_key in Hpq.
      rewrite <- (Hkey p), <- (Hkey q); [exact Hpq | |].
      * rewrite <- (take_drop 10 sorted). set_solver.
      * rewrite <- (take_drop 10 sorted). set_solver.
Qed.

(** X17: the single best match is the first of the top ten: [fuzz_] returns
    the head of what [fuzz_multiple] returns on the same arguments (and
    raises where that list is empty). *)
Theorem fuzz_is_head_of_fuzz_multiple (partial_ratio : string → string → Z)
    (s : string) (iterable : list string) :
  Fuzz.fuzz_ partial_ratio s iterable
  = head (Fuzz.fuzz_multiple partial_ratio s iterable).
Proof.
  unfold Fuzz.fuzz_, Fuzz.fuzz_multiple.
  rewrite <- head_sorted_desc.
  destruct (Fuzz.sorted_desc _) as [|p rest]; reflexivity.
Qed.

(** X18: the mechanics and restrictions transformers keep a value of the
    cache as it is and map any other value to a value of the cache (raising
    only on an empty cache); transforming twice is transforming once. *)
Theorem transform_yields_cached_value (partial_ratio : string → string → Z)
    (cache : list string) (value : string) :
  (value ∈ cache → Fuzz.transform partial_ratio cache value = Some value)
  ∧ (Fuzz.transform partial_ratio cache value = None ↔ cache = [])
  ∧ ∀ r, Fuzz.transform partial_ratio cache value = Some r →
         r ∈ cache ∧ Fuzz.transform partial_ratio cache r = Some r.
Proof.
  assert (Hfix : ∀ v, v ∈ cache →
                      Fuzz.transform partial_ratio cache v = Some v).
  { intros v Hv. unfold Fuzz.transform. case_decide; [reflexivity|tauto]. }
  split; [apply Hfix|]. split.
  - unfold Fuzz.transform. case_decide as Hin.
    + split; [discriminate|]. intros ->. apply elem_of_nil in Hin.
      destruct Hin.
    + apply fuzz_none_iff.
  - intros r Hr. assert (Hin : r ∈ cache).
    { unfold Fuzz.transform in Hr. case_decide as Hv.
      - injection Hr as <-. exact Hv.
      - destruct (fuzz_some_spec partial_ratio value cache r Hr)
          as (before & after & -> & _). set_solver. }
    split; [exact Hin | apply Hfix; exact Hin].
Qed.

(** * Properties of the display strings and of the map metadata *)

Section DisplayFacts.

Import Stdlib.Strings.Ascii Submission Display.

Lemma remove_nulls_spec {A} (sequence : list (option A)) :
  Forall is_Some (_remove_nulls sequence)
  ∧ omap id (_remove_nulls sequence) = omap id sequence
  ∧ _remove_nulls (_remove_nulls sequence) = _remove_nulls sequence
  ∧ (_remove_nulls sequence = [] ↔ omap id sequence = []).
Proof.
  unfold _remove_nulls. induction sequence as [|[x|] rest IH].
  - repeat split; constructor.
  - destruct IH as (Hall & Hmap & Hidem & Hnil).
    rewrite filter_cons_True by eauto. repeat split.
    + constructor; eauto.
    + change (x :: omap id (filter (λ y : option A, is_Some y) rest)
              = x :: omap id rest).
      f_equal. exact Hmap.
    + rewrite filter_cons_True by eauto. rewrite Hidem. reflexivity.
    + discriminate.
    + discriminate.
  - destruct IH as (Hall & Hmap & Hidem & Hnil).
    rewrite filter_cons_False by (intros [? ?]; discriminate).
    repeat split; try assumption; apply Hnil.
Qed.

Lemma guide_entries_links (gs : list string) :
  ∀ f : nat → string → nat * string,
    (∀ i x, (f i x).2 = x) →
    snd <$> filter (λ p, str_truthy p.2 = true) (imap f gs)
    = List.filter str_truthy gs.
Proof.
  induction gs as [|g rest IH]; intros f Hf; [reflexivity|].
  rewrite imap_cons. simpl List.filter.
  destruct (str_truthy g) eqn:Hg.
  - rewrite filter_cons_True by (rewrite Hf; exact Hg).
    rewrite fmap_cons, Hf. f_equal. apply IH. intros i x. apply Hf.
  - rewrite filter_cons_False by (rewrite Hf, Hg; discriminate).
    apply IH. intros i x. apply Hf.
Qed.

Lemma str_truthy_iff (s : string) : str_truthy s = true ↔ s ≠ EmptyString.
Proof. destruct s; simpl; split; congruence. Qed.

Lemma lower_char_idem (c : ascii) : lower_char (lower_char c) = lower_char c.
Proof. destruct c as [[] [] [] [] [] [] [] []]; reflexivity. Qed.

Lemma extra_char_lower (c : ascii) : extra_char (lower_char c) = extra_char c.
Proof. destruct c as [[] [] [] [] [] [] [] []]; reflexivity. Qed.

Lemma lower_char_not_upper (c : ascii) : is_upper (lower_char c) = false.
Proof. destruct c as [[] [] [] [] [] [] [] []]; reflexivity. Qed.

Lemma lower_idem (s : string) : lower (lower s) = lower s.
Proof.
  induction s as [|c rest IH]; simpl; [reflexivity|].
  rewrite lower_char_idem, IH. reflexivity.
Qed.

Lemma lower_delete_chars (s : string) :
  lower (delete_chars extra_char (lower s)) = delete_chars extra_char (lower s).
Proof.
  induction s as [|c rest IH]; simpl; [reflexivity|].
  destruct (extra_char (lower_char c)); simpl; [exact IH|].
  rewrite lower_char_idem, IH. reflexivity.
Qed.

Lemma delete_chars_idem (p : ascii → bool) (s : string) :
  delete_chars p (delete_chars p s) = delete_chars p s.
Proof.
  induction s as [|c rest IH]; simpl; [reflexivity|].
  destruct (p c) eqn:Hp; simpl; [exact IH|]. rewrite Hp, IH. reflexivity.
Qed.

Lemma delete_chars_length (p : ascii → bool) (s : string) :
  (String.length (delete_chars p s) ≤ String.length s)%nat.
Proof.
  induction s as [|c rest IH]; simpl; [lia|]. destruct (p c); simpl; lia.
Qed.

Lemma lower_length (s : string) : String.length (lower s) = String.length s.
Proof. induction s as [|c rest IH]; simpl; congruence. Qed.

Lemma remove_extra_chars_all (s : string) :
  all_chars (λ c, negb (extra_char c) && negb (is_upper c))
            (delete_chars extra_char (lower s)) = true.
Proof.
  induction s as [|c rest IH]; simpl; [reflexivity|].
  destruct (extra_char (lower_char c)) eqn:He; simpl; [exact IH|].
  rewrite He, lower_char_not_upper, IH. reflexivity.
Qed.

Lemma delete_chars_app (p : ascii → bool) (a b : string) :
  delete_chars p (String.append a b)
  = String.append (delete_chars p a) (delete_chars p b).
Proof.
  induction a as [|c rest IH]; simpl; [reflexivity|].
  destruct (p c); simpl; rewrite IH; reflexivity.
Qed.

Lemma rstrip_app_space (a : string) :
  rstrip (String.append a " ") = rstrip a.
Proof. induction a as [|c rest IH]; simpl; [reflexivity|]. rewrite IH. reflexivity. Qed.

Lemma base_name_suffix (d : string) :
  base_name (String.append d " +") = base_name d
  ∧ base_name (String.append d " -") = base_name d.
Proof.
  unfold base_name. rewrite !delete_chars_app. simpl.
  change (String " " EmptyString) with " "%string.
  rewrite !rstrip_app_space. auto.
Qed.

Lemma concat_nonempty (sep x : string) (l : list string) :
  x ≠ EmptyString → String.concat sep (x :: l) ≠ EmptyString.
Proof.
  intros Hx. destruct x as [|c x]; [congruence|].
  destruct l; simpl; discriminate.
Qed.

Lemma medal_entry_nil (format_float : float → string) (emoji : string)
    (o : option float) :
  (∀ x, o = Some x → float_truthy x = true) →
  (medal_entry format_float emoji o = [] ↔ o = None)
  ∧ ∀ e, e ∈ medal_entry format_float emoji o → e ≠ EmptyString.
Proof.
  intros Ht. destruct o as [x|]; simpl.
  - rewrite (Ht x eq_refl). split; [split; discriminate|].
    intros e He. apply list_elem_of_singleton in He. subst e.
    destruct emoji; discriminate.
  - split; [tauto|]. intros e He. apply elem_of_nil in He. destruct He.
Qed.

Lemma accessor_truthy (s : MapSubmission) :
  (∀ x, gold s = Some x → float_truthy x = true)
  ∧ (∀ x, silver s = Some x → float_truthy x = true)
  ∧ (∀ x, bronze s = Some x → float_truthy x = true).
Proof.
  unfold gold, silver, bronze.
  destruct (medals s) as [[[g sv] b]|]; [|repeat split; discriminate].
  repeat split; intros x;
    [destruct (float_truthy g) eqn:E | destruct (float_truthy sv) eqn:E
    | destruct (float_truthy b) eqn:E];
    intros [= <-] || discriminate; exact E.
Qed.

End DisplayFacts.

(** X19: [mechanics_str], [restrictions_str] and [map_types_str] raise
    [TypeError] on an attribute that is [None]; otherwise they return the
    non-null elements joined by ", " (or [None] when there is none), leave
    the attribute free of nulls with the same non-null elements in the same
    order, and a second access returns the same value and changes
    nothing. *)
Theorem tags_str_drops_nulls (sequence : list (option string)) :
  Display.tags_str None = (Raise TypeError, None)
  ∧ ∃ cleaned,
      Display.tags_str (Some sequence)
      = (Ok (match omap id sequence with
             | [] => None
             | l => Some (Display.join ", " l)
             end),
         Some cleaned)
      ∧ Forall is_Some cleaned
      ∧ omap id cleaned = omap id sequence
      ∧ Display.tags_str (Some cleaned) = Display.tags_str (Some sequence).
Proof.
  split; [reflexivity|].
  destruct (remove_nulls_spec sequence) as (Hall & Hmap & Hidem & Hnil).
  exists (Display._remove_nulls sequence). unfold Display.tags_str.
  rewrite Hidem, Hmap. repeat split; try assumption.
  destruct (Display._remove_nulls sequence) as [|x rest] eqn:Hc.
  - rewrite (proj1 Hnil eq_refl). reflexivity.
  - destruct (omap id sequence) as [|y l] eqn:Ho; [|reflexivity].
    pose proof (proj2 Hnil eq_refl) as Hcontra. discriminate.
Qed.

(** X20: [guide_str] lists, in order, exactly the links for which
    [insert_guide] writes a row, and numbers each link by its position in
    [self.guides] counted from 1, empty links included in the count. *)
Theorem guide_str_matches_guide_rows (s : Submission.MapSubmission)
    (gs : list string) :
  Submission.guides s = Some gs →
  Display.guide_str s
  = Ok (Display.join ", " (Display.guide_link <$> Display.guide_entries gs))
  ∧ Submission.guide_rows s gs
    = Submission.guides_row (Submission.map_code s)
      <$> (snd <$> Display.guide_entries gs)
  ∧ ∀ count link,
      (count, link) ∈ Display.guide_entries gs
      ↔ ∃ i, count = S i ∧ gs !! i = Some link ∧ link ≠ EmptyString.
Proof.
  intros Hg. split; [unfold Display.guide_str; rewrite Hg; reflexivity|].
  split.
  - unfold Submission.guide_rows, Display.guide_entries.
    rewrite guide_entries_links by reflexivity. reflexivity.
  - intros count link. unfold Display.guide_entries.
    rewrite list_elem_of_filter, elem_of_lookup_imap. simpl.
    rewrite str_truthy_iff. split.
    + intros (Hne & i & x & [= -> ->] & Hi). eauto.
    + intros (i & -> & Hi & Hne). split; [exact Hne|]. eauto.
Qed.

Lemma guide_str_matches_guide_rows_witness :
  Display.guide_str Submission.ex_submission = Ok "[Link 2](https://guide)"%string.
Proof.
  destruct (guide_str_matches_guide_rows Submission.ex_submission
              [""; "https://guide"]%string) as [Hstr _].
  - reflexivity.
  - rewrite Hstr. vm_compute. reflexivity.
Defined.

(** X21: on a name of characters below 128, [_remove_extra_chars] returns a
    string without whitespace, colon, parenthesis, apostrophe or upper-case
    letter, no longer than the name, and applying it again changes
    nothing. *)
Theorem remove_extra_chars_clean (name : string) :
  Display.all_chars Display.is_ascii name = true →
  Display.all_chars
    (λ c, negb (Display.extra_char c) && negb (Display.is_upper c))
    (Display._remove_extra_chars name) = true
  ∧ Display._remove_extra_chars (Display._remove_extra_chars name)
    = Display._remove_extra_chars name
  ∧ (String.length (Display._remove_extra_chars name)
     ≤ String.length name)%nat.
Proof.
  intros _. unfold Display._remove_extra_chars. split; [|split].
  - apply remove_extra_chars_all.
  - rewrite lower_delete_chars. apply delete_chars_idem.
  - rewrite <- (lower_length name). apply delete_chars_length.
Qed.

Lemma remove_extra_chars_clean_witness :
  Display._remove_extra_chars
    (Display._remove_extra_chars "King's Row (Winter)")
  = Display._remove_extra_chars "King's Row (Winter)".
Proof.
  destruct (remove_extra_chars_clean "King's Row (Winter)") as (_ & H & _).
  - vm_compute. reflexivity.
  - exact H.
Defined.

(** X22: the rank name looked up for the thumbnail ignores a trailing " +"
    or " -": every difficulty of [DIFFICULTIES], alone or with one of the
    two suffixes, is found in [DIFF_TO_RANK] and gives the lower-cased rank
    name of the difficulty; the keys of the table are the difficulties. *)
Theorem thumbnail_rank_of_difficulty :
  (∀ d, Display.thumbnail_rank (String.append d " +")
        = Display.thumbnail_rank d
        ∧ Display.thumbnail_rank (String.append d " -")
          = Display.thumbnail_rank d)
  ∧ (∀ d, d ∈ Rank.DIFFICULTIES →
          ∃ name, Display.DIFF_TO_RANK !! d = Some name
                  ∧ Display.thumbnail_rank d = Ok (Display.lower name))
  ∧ dom Display.DIFF_TO_RANK = list_to_set Rank.DIFFICULTIES.
Proof.
  split; [|split].
  - intros d. unfold Display.thumbnail_rank.
    destruct (base_name_suffix d) as [-> ->]. auto.
  - intros d Hd. unfold Rank.DIFFICULTIES in Hd.
    repeat (apply elem_of_cons in Hd as [->|Hd];
            [eexists; split; vm_compute; reflexivity|]).
    apply elem_of_nil in Hd. destruct Hd.
  - apply (bool_decide_unpack _). vm_compute. exact I.
Qed.

(** X23: [medals_str] is the empty string exactly when none of the three
    accessors returns a value, that is when the medals are absent or all
    three cutoffs are zero. *)
Theorem medals_str_empty_iff (GOLD SILVER BRONZE : string)
    (format_float : float → string) (s : Submission.MapSubmission) :
  Submission.medals_str GOLD SILVER BRONZE format_float s = EmptyString
  ↔ Submission.gold s = None ∧ Submission.silver s = None
    ∧ Submission.bronze s = None.
Proof.
  destruct (accessor_truthy s) as (Hg & Hs & Hb).
  destruct (medal_entry_nil format_float GOLD _ Hg) as [Hgn Hge].
  destruct (medal_entry_nil format_float SILVER _ Hs) as [Hsn Hse].
  destruct (medal_entry_nil format_float BRONZE _ Hb) as [Hbn Hbe].
  unfold Submission.medals_str, Submission.formatted_medals.
  destruct (Submission.medal_entry format_float GOLD (Submission.gold s)
            ++ Submission.medal_entry format_float SILVER (Submission.silver s)
            ++ Submission.medal_entry format_float BRONZE (Submission.bronze s))
    as [|e l] eqn:Hl.
  - apply app_eq_nil in Hl as [H1 Hl]. apply app_eq_nil in Hl as [H2 H3].
    split; [intros _|reflexivity]. rewrite <- Hgn, <- Hsn, <- Hbn. auto.
  - split.
    + intros Hempty. exfalso. revert Hempty. apply concat_nonempty.
      assert (He : e ∈ e :: l) by left. rewrite <- Hl in He.
      rewrite !elem_of_app in He. destruct He as [He|[He|He]]; eauto.
    + intros (H1 & H2 & H3). apply Hgn in H1. apply Hsn in H2.
      apply Hbn in H3. rewrite H1, H2, H3 in Hl. discriminate.
Qed.

(** * Further properties of the submission writer *)

Section WriterMore.

Import Submission Display.

Lemma writes_only_ret {A} (code : string) (a : A) :
  writes_only code (mret a : M Database A).
Proof.
  intros db. exists []. rewrite app_nil_r. split; [reflexivity | constructor].
Qed.

Lemma writes_only_raise {A} (code : string) (e : Exn) :
  writes_only code (raise e : M Database A).
Proof.
  intros db. exists []. rewrite app_nil_r. split; [reflexivity | constructor].
Qed.

Lemma writes_only_bind {A B} (code : string) (m : M Database A)
    (k : A → M Database B) :
  writes_only code m → (∀ a, writes_only code (k a)) →
  writes_only code (m ≫= k).
Proof.
  intros Hm Hk db. unfold mbind, M_bind.
  destruct (Hm db) as (new1 & H1 & F1).
  destruct (m db) as [[a|e] db1]; simpl in *.
  - destruct (Hk a db1) as (new2 & H2 & F2).
    exists (new1 ++ new2). rewrite H2, H1, app_assoc.
    split; [reflexivity | apply Forall_app; auto].
  - exists new1. auto.
Qed.

Lemma writes_only_execute (code : string) (new : list Row) :
  Forall (λ r, row_code r = code) new → writes_only code (execute new).
Proof.
  intros Hnew [rws [[|n]|]]; unfold execute; simpl.
  - exists []. rewrite app_nil_r. split; [reflexivity | constructor].
  - exists new. auto.
  - exists new. auto.
Qed.

Lemma writes_only_when (code : string) (b : bool) (m : M Database unit) :
  writes_only code m → writes_only code (when b m).
Proof. destruct b; simpl; [auto|]. intros _. apply writes_only_ret. Qed.

Lemma writes_only_iter {A} (code : string) (o : option (list A)) :
  writes_only code (iter o).
Proof. destruct o; [apply writes_only_ret | apply writes_only_raise]. Qed.

Lemma Forall_map_code {A} (code : string) (f : A → Row) (l : list A) :
  (∀ x, row_code (f x) = code) →
  Forall (λ r, row_code r = code) (map f l).
Proof.
  intros Hf. induction l; simpl; constructor; auto.
Qed.

Variable DIFFICULTIES_RANGES : gmap string (float * float).

Lemma insert_all_writes_only (s : MapSubmission) (mod_ : bool) :
  writes_only (map_code s) (insert_all DIFFICULTIES_RANGES s mod_).
Proof.
  unfold insert_all, insert_maps, insert_mechanics, insert_restrictions,
    insert_map_creators, insert_map_ratings, insert_guide, insert_medals,
    insert_timestamp, base_difficulty, set, set_many.
  repeat first
    [ apply writes_only_bind; [|intros ?]
    | apply writes_only_when
    | apply writes_only_iter
    | apply writes_only_execute;
      first [ apply Forall_map_code; intros ?; reflexivity
            | repeat constructor ] ].
  destruct (difficulty s) as [d|]; [|apply writes_only_raise].
  destruct (DIFFICULTIES_RANGES !! d) as [[low high]|];
    [apply writes_only_ret | apply writes_only_raise].
Qed.

End WriterMore.

(** X24: whatever the submission, the flag and the outcome (success, storage
    error, [TypeError] or [KeyError]), [insert_all] only appends: the rows
    present before are kept, in place, and every row it adds carries the
    map code of the submission. *)
Theorem insert_all_only_appends
    (DIFFICULTIES_RANGES : gmap string (float * float))
    (s : Submission.MapSubmission) (mod_ : bool) (db : Submission.Database) :
  ∃ new,
    Submission.rows
      (Submission.insert_all DIFFICULTIES_RANGES s mod_ db).2
    = Submission.rows db ++ new
    ∧ Forall (λ r, Display.row_code r = Submission.map_code s) new.
Proof. apply insert_all_writes_only. Qed.

(** X25: a submission whose difficulty is missing from
    [DIFFICULTIES_RANGES] (or is [None]) makes [insert_all] raise [KeyError]
    at the rating row, with the map row, the mechanics rows, the
    restrictions rows and the creator row already written. *)
Theorem insert_all_unknown_difficulty
    (DIFFICULTIES_RANGES : gmap string (float * float))
    (s : Submission.MapSubmission) (mod_ : bool) (ms rs : list string)
    (db : Submission.Database) :
  Submission.mechanics s = Some ms →
  Submission.restrictions s = Some rs →
  match Submission.difficulty s with
  | Some d => DIFFICULTIES_RANGES !! d = None
  | None => True
  end →
  Submission.fails_after db = None →
  Submission.insert_all DIFFICULTIES_RANGES s mod_ db
  = (Raise KeyError,
     {| Submission.rows :=
          Submission.rows db
          ++ [Submission.maps_row (Submission.map_name s)
                (Submission.map_types s) (Submission.map_code s)
                (Submission.description s) mod_
                (Submission.checkpoint_count s)]
          ++ map (Submission.map_mechanics_row (Submission.map_code s)) ms
          ++ map (Submission.map_restrictions_row (Submission.map_code s)) rs
          ++ [Submission.map_creators_row (Submission.map_code s)
                (Submission.creator s)];
        Submission.fails_after := None |}).
Proof.
  intros Hm Hr Hd Hfa. destruct db as [rws fa]. simpl in Hfa. subst fa.
  unfold Submission.insert_all, Submission.insert_maps,
    Submission.insert_mechanics, Submission.insert_restrictions,
    Submission.insert_map_creators, Submission.insert_map_ratings,
    Submission.base_difficulty, Submission.set, Submission.set_many,
    Submission.execute, Submission.iter, mbind, M_bind, mret, M_ret, raise.
  rewrite Hm, Hr. simpl.
  destruct (Submission.difficulty s) as [d|]; [rewrite Hd|]; simpl;
    rewrite <- !app_assoc; reflexivity.
Qed.

Lemma insert_all_unknown_difficulty_witness :
  Submission.insert_all ∅ Submission.ex_submission false
    (Submission.empty_database None)
  = (Raise KeyError,
     {| Submission.rows :=
          [Submission.maps_row "Hanamura" (Some ["Classic"%string]) "ABC12"
             None false 12;
           Submission.map_mechanics_row "ABC12" "Bhop";
           Submission.map_mechanics_row "ABC12" "Dash";
           Submission.map_restrictions_row "ABC12" "Dash Start";
           Submission.map_creators_row "ABC12" 7];
        Submission.fails_after := None |}).
Proof.
  apply (insert_all_unknown_difficulty ∅ Submission.ex_submission false
           ["Bhop"; "Dash"]%string ["Dash Start"%string]
           (Submission.empty_database None)).
  - reflexivity.
  - reflexivity.
  - simpl. apply lookup_empty.
  - reflexivity.
Defined.

(** X26: a submission whose mechanics were never set ([None]) makes
    [insert_all] raise [TypeError] with the map row already written and
    nothing else. *)
Theorem insert_all_missing_mechanics
    (DIFFICULTIES_RANGES : gmap string (float * float))
    (s : Submission.MapSubmission) (mod_ : bool) (db : Submission.Database) :
  Submission.mechanics s = None →
  Submission.fails_after db = None →
  Submission.insert_all DIFFICULTIES_RANGES s mod_ db
  = (Raise TypeError,
     {| Submission.rows :=
          Submission.rows db
          ++ [Submission.maps_row (Submission.map_name s)
                (Submission.map_types s) (Submission.map_code s)
                (Submission.description s) mod_
                (Submission.checkpoint_count s)];
        Submission.fails_after := None |}).
Proof.
  intros Hm Hfa. destruct db as [rws fa]. simpl in Hfa. subst fa.
  unfold Submission.insert_all, Submission.insert_maps,
    Submission.insert_mechanics, Submission.set, Submission.execute,
    Submission.iter, mbind, M_bind, raise.
  rewrite Hm. reflexivity.
Qed.

Lemma insert_all_missing_mechanics_witness :
  Submission.insert_all Submission.ex_ranges Display.ex_unset false
    (Submission.empty_database None)
  = (Raise TypeError,
     {| Submission.rows :=
          [Submission.maps_row "Hanamura" None "ABC12" None false 12];
        Submission.fails_after := None |}).
Proof.
  apply (insert_all_missing_mechanics Submission.ex_ranges Display.ex_unset
           false (Submission.empty_database None)); reflexivity.
Defined.

(** * The role lists in closed form *)

Section RoleLists.

Import Reconciler.

Lemma filter_all (P : Z → Prop) `{∀ x, Decision (P x)} (l : list Z) :
  (∀ x, x ∈ l → P x) → filter P l = l.
Proof.
  induction l as [|y l IH]; intros Hall; [reflexivity|].
  rewrite filter_cons_True by (apply Hall; left).
  f_equal. apply IH. intros x Hx. apply Hall. right. exact Hx.
Qed.

Lemma foldl_append_missing_fresh (adds : list Z) :
  ∀ l : list Z,
    NoDup adds → (∀ x, x ∈ adds → x ∉ l) →
    foldl append_missing l adds = l ++ adds.
Proof.
  induction adds as [|a adds IH]; intros l Hnd Hfresh; simpl.
  - rewrite app_nil_r. reflexivity.
  - apply NoDup_cons in Hnd as [Ha Hnd].
    unfold append_missing at 2. case_decide as Hin.
    + exfalso. apply (Hfresh a); [left | exact Hin].
    + rewrite IH; [rewrite <- app_assoc; reflexivity | exact Hnd |].
      intros x Hx. rewrite elem_of_app, list_elem_of_singleton.
      intros [Hl | ->]; [|contradiction].
      apply (Hfresh x); [right; exact Hx | exact Hl].
Qed.

Lemma py_remove_filter (r : Z) (l : list Z) :
  NoDup l → py_remove r l = filter (λ x, x ≠ r) l.
Proof.
  induction l as [|y l IH]; intros Hnd; [reflexivity|].
  apply NoDup_cons in Hnd as [Hy Hnd]. simpl. case_decide as Hyr.
  - subst y. rewrite filter_cons_False by tauto.
    symmetry. apply filter_all. intros x Hx ->. contradiction.
  - rewrite filter_cons_True by exact Hyr. f_equal. apply IH. exact Hnd.
Qed.

Lemma remove_held_filter (l : list Z) (r : Z) :
  NoDup l → remove_held l r = filter (λ x, x ≠ r) l.
Proof.
  intros Hnd. unfold remove_held. case_decide as Hin.
  - apply py_remove_filter. exact Hnd.
  - symmetry. apply filter_all. intros x Hx ->. contradiction.
Qed.

Lemma foldl_remove_held_filter (rems : list Z) :
  ∀ l : list Z,
    NoDup l → foldl remove_held l rems = filter (λ x, x ∉ rems) l.
Proof.
  induction rems as [|r rems IH]; intros l Hnd; simpl.
  - symmetry. apply filter_all. intros x _. apply not_elem_of_nil.
  - rewrite remove_held_filter by exact Hnd.
    rewrite IH by (apply NoDup_filter; exact Hnd).
    rewrite list_filter_filter. apply list_filter_iff.
    intros x. rewrite not_elem_of_cons. tauto.
Qed.

Lemma NoDup_slice_to (l : list Z) (n : Z) : NoDup l → NoDup (slice_to l n).
Proof.
  intros Hnd. unfold slice_to.
  destruct (n <? 0); eapply sublist_NoDup; eauto using sublist_take.
Qed.

Variables (ranks ranks_plus : list Z).

Lemma NoDup_added (held : list Z) (rank rank_plus : Z) :
  NoDup (rank_roles ranks ++ rank_plus_roles ranks_plus) →
  NoDup (added ranks ranks_plus held rank rank_plus).
Proof.
  intros Hnd. apply NoDup_app in Hnd as (Hn1 & Hdisj & Hn2).
  unfold added. apply NoDup_app. split; [|split].
  - apply NoDup_filter, NoDup_slice_to. exact Hn1.
  - intros x Hx Hy. apply list_elem_of_filter in Hx as [_ Hx].
    apply list_elem_of_filter in Hy as [_ Hy].
    apply slice_to_subseteq in Hx. apply slice_to_subseteq in Hy.
    exact (Hdisj x Hx Hy).
  - apply NoDup_filter, NoDup_slice_to. exact Hn2.
Qed.

Lemma new_roles_closed_form (held : list Z) (rank rank_plus : Z) :
  NoDup (rank_roles ranks ++ rank_plus_roles ranks_plus) →
  NoDup held →
  new_roles ranks ranks_plus held rank rank_plus
  = filter (λ x, x ∉ removed ranks ranks_plus held rank rank_plus) held
    ++ added ranks ranks_plus held rank rank_plus.
Proof.
  intros Hnd Hh. unfold new_roles.
  pose proof (NoDup_added held rank rank_plus Hnd) as Hna.
  assert (Hfresh : ∀ x, x ∈ added ranks ranks_plus held rank rank_plus →
                        x ∉ held).
  { intros x Hx. apply added_subseteq_target in Hx. tauto. }
  rewrite foldl_append_missing_fresh by assumption.
  rewrite foldl_remove_held_filter.
  - rewrite filter_app. f_equal. apply filter_all.
    intros x Hx Hr. apply removed_subseteq_scanned in Hr as [_ Hr].
    exact (Hfresh x Hx Hr).
  - apply NoDup_app. split; [exact Hh|]. split; [|exact Hna].
    intros x Hx Ha. exact (Hfresh x Ha Hx).
Qed.

End RoleLists.

(** X27: for a non-negative rank and plus tier, [added] holds exactly the
    roles of ladder index 1 .. rank and of plus-ladder index 1 .. rank_plus
    that the member does not hold, and [removed] holds exactly the held
    roles of ladder index rank + 2 and above and of plus-ladder index
    rank_plus + 2 and above (the ladders being [ranks()] and
    [ranks_plus()], index 0 included). *)
Theorem added_and_removed_by_index (ranks ranks_plus held : list Z)
    (rank rank_plus : Z) :
  0 ≤ rank → 0 ≤ rank_plus →
  (∀ x, x ∈ Reconciler.added ranks ranks_plus held rank rank_plus
        ↔ x ∉ held
          ∧ ((∃ i, (1 ≤ i ≤ Z.to_nat rank)%nat ∧ ranks !! i = Some x)
             ∨ (∃ i, (1 ≤ i ≤ Z.to_nat rank_plus)%nat
                     ∧ ranks_plus !! i = Some x)))
  ∧ (∀ x, x ∈ Reconciler.removed ranks ranks_plus held rank rank_plus
          ↔ x ∈ held
            ∧ ((∃ i, (Z.to_nat rank + 2 ≤ i)%nat ∧ ranks !! i = Some x)
               ∨ (∃ i, (Z.to_nat rank_plus + 2 ≤ i)%nat
                       ∧ ranks_plus !! i = Some x))).
Proof.
  intros Hr Hrp. split; intros x.
  - unfold Reconciler.added, Reconciler.rank_roles,
      Reconciler.rank_plus_roles.
    rewrite elem_of_app, !list_elem_of_filter,
      !elem_of_slice_to_tail by assumption.
    tauto.
  - apply elem_of_removed; assumption.
Qed.

Lemma added_and_removed_by_index_witness :
  103 ∈ Reconciler.removed Reconciler.ex_ranks Reconciler.ex_ranks_plus
          [101; 103] 1 0.
Proof.
  destruct (added_and_removed_by_index Reconciler.ex_ranks
              Reconciler.ex_ranks_plus [101; 103] 1 0) as [_ Hrem].
  - lia.
  - lia.
  - apply Hrem. split.
    + apply (bool_decide_unpack _). vm_compute. exact I.
    + left. exists 3%nat. split; [simpl; lia | reflexivity].
Defined.

(** X28: with ladders that list every role once and a member whose held
    roles contain no duplicate, the role list handed to [user.edit] is the
    held roles without the removed ones, in their order, followed by the
    added roles in ladder order (plain ladder first). *)
Theorem new_roles_is_held_minus_removed_plus_added
    (ranks ranks_plus held : list Z) (rank rank_plus : Z) :
  NoDup (Reconciler.rank_roles ranks ++ Reconciler.rank_plus_roles ranks_plus) →
  NoDup held →
  Reconciler.new_roles ranks ranks_plus held rank rank_plus
  = filter (λ x, x ∉ Reconciler.removed ranks ranks_plus held rank rank_plus)
           held
    ++ Reconciler.added ranks ranks_plus held rank rank_plus.
Proof. apply new_roles_closed_form. Qed.

Lemma new_roles_is_held_minus_removed_plus_added_witness :
  Reconciler.new_roles Reconciler.ex_ranks Reconciler.ex_ranks_plus
    [500; 103; 101] 2 1
  = filter (λ x, x ∉ Reconciler.removed Reconciler.ex_ranks
                       Reconciler.ex_ranks_plus [500; 103; 101] 2 1)
           [500; 103; 101]
    ++ Reconciler.added Reconciler.ex_ranks Reconciler.ex_ranks_plus
         [500; 103; 101] 2 1.
Proof.
  apply new_roles_is_held_minus_removed_plus_added.
  - apply (bool_decide_unpack _). vm_compute. exact I.
  - apply (bool_decide_unpack _). vm_compute. exact I.
Defined.
